(** * Sector: the outline of an annular sector as SVG path commands

    A shallow embedding of [src/shape/Sector.js] (recharts) and the
    properties its specification states about it.

    Numbers.  JavaScript numbers are modelled by the real numbers [R]:
    [Math.abs] is [Rabs], [Math.min] is [Rmin], [Math.asin] and [Math.cos]
    are [asin] and [cos].  Rounding, infinities and NaN are outside the
    model; every statement that depends on [asin] being applied inside
    [-1, 1], or on a division by a non-zero number, says so.

    Strings.  The source assembles the [d] attribute from template
    literals.  The embedding keeps the sequence of path commands with
    their numeric arguments and flags ([+(cond)] is the boolean [cond]);
    white space and the decimal printing of numbers are dropped.

    Imports.  [polarToCartesian], [RADIAN] (util/PolarUtils) and
    [getPercentValue], [mathSign] (util/DataUtils) are imported by the
    source file and are not part of it.  They are the fields of the class
    [Utils]: the embedding is parametric in them.  [SpecUtils] is the
    instance described by the specification. *)

From Stdlib Require Import Reals Lra Lia List Bool.
Import ListNotations.
Local Open Scope R_scope.

(** ** Comparisons of numbers as booleans *)

Definition Rltb (a b : R) : bool := if Rlt_dec a b then true else false.
Definition Rleb (a b : R) : bool := if Rle_dec a b then true else false.
Definition Rgtb (a b : R) : bool := Rltb b a.
Definition Reqb (a b : R) : bool := if Req_dec_T a b then true else false.

Infix "<?" := Rltb (at level 70, no associativity) : R_scope.
Infix "<=?" := Rleb (at level 70, no associativity) : R_scope.
Infix ">?" := Rgtb (at level 70, no associativity) : R_scope.
Infix "=?" := Reqb (at level 70, no associativity) : R_scope.

(** ** Data model *)

(** [{ x, y }], the result of [polarToCartesian]. *)
Record Point : Type := mkPoint { x : R; y : R }.

(** One command of the [d] attribute.
    - [MoveTo p] is [M x,y];
    - [ArcTo rx ry rot large sweep p] is [A rx,ry,rot,large,sweep,x,y];
    - [ArcBy rx ry rot large sweep dx dy] is the relative
      [a rx,ry,rot,large,sweep,dx,dy];
    - [LineTo p] is [L x,y];
    - [ClosePath] is [Z]. *)
Inductive PathCommand : Type :=
| MoveTo (p : Point)
| ArcTo (rx ry rot : R) (large sweep : bool) (p : Point)
| ArcBy (rx ry rot : R) (large sweep : bool) (dx dy : R)
| LineTo (p : Point)
| ClosePath.

Definition Path : Type := list PathCommand.

(** The [cornerRadius] prop is a number or a percentage string
    ([PropTypes.oneOfType([PropTypes.number, PropTypes.string])]). *)
Inductive CornerRadius : Type :=
| Absolute (value : R)
| Percent (percent : R).

(** The props read by [render]. *)
Record Props : Type := mkProps {
  cx : R;
  cy : R;
  innerRadius : R;
  outerRadius : R;
  startAngle : R;
  endAngle : R;
  cornerRadius : CornerRadius;
  forceCornerRadius : bool
}.

(** What [getTangentCircle] returns. *)
Record TangentCircle : Type := mkTangentCircle {
  center : Point;
  circleTangency : Point;
  lineTangency : Point;
  theta : R
}.

(** The functions and the constant that Sector.js imports. *)
Class Utils : Type := {
  RADIAN : R;
  polarToCartesian : R -> R -> R -> R -> Point;
  mathSign : R -> R;
  getPercentValue : CornerRadius -> R -> R -> bool -> R
}.

(** ** The source functions *)

Section Sector.
Context `{U : Utils}.

(** Lines 13-18. *)
Definition getDeltaAngle (startAngle endAngle : R) : R :=
  let sign := mathSign (endAngle - startAngle) in
  let deltaAngle := Rmin (Rabs (endAngle - startAngle)) 359.999 in
  sign * deltaAngle.

(** Line 22: the radius of the circle on which the centre of the
    rounding circle lies. *)
Definition centerRadiusOf (radius : R) (isExternal : bool)
    (cornerRadius : R) : R :=
  cornerRadius * (if isExternal then 1 else -1) + radius.

(** Lines 20-33. *)
Definition getTangentCircle (cx cy radius angle sign : R)
    (isExternal : bool) (cornerRadius : R) : TangentCircle :=
  let centerRadius := centerRadiusOf radius isExternal cornerRadius in
  let theta := asin (cornerRadius / centerRadius) / RADIAN in
  let centerAngle := angle + sign * theta in
  let center := polarToCartesian cx cy centerRadius centerAngle in
  let circleTangency := polarToCartesian cx cy radius centerAngle in
  let lineTangency :=
    polarToCartesian cx cy (centerRadius * cos (theta * RADIAN)) angle in
  mkTangentCircle center circleTangency lineTangency theta.

(** Lines 44-92. *)
Definition getSectorPath (cx cy innerRadius outerRadius
    startAngle endAngle : R) : Path :=
  let angle := getDeltaAngle startAngle endAngle in
  let tempEndAngle := startAngle + angle in
  let outerStartPoint := polarToCartesian cx cy outerRadius startAngle in
  let outerEndPoint := polarToCartesian cx cy outerRadius tempEndAngle in
  let path :=
    [ MoveTo outerStartPoint;
      ArcTo outerRadius outerRadius 0
            (Rabs angle >? 180) (startAngle >? tempEndAngle)
            outerEndPoint ] in
  if innerRadius >? 0 then
    let innerStartPoint := polarToCartesian cx cy innerRadius startAngle in
    let innerEndPoint := polarToCartesian cx cy innerRadius tempEndAngle in
    path ++
    [ LineTo innerEndPoint;
      ArcTo innerRadius innerRadius 0
            (Rabs angle >? 180) (startAngle <=? tempEndAngle)
            innerStartPoint;
      ClosePath ]
  else
    path ++ [ LineTo (mkPoint cx cy); ClosePath ].

(** Lines 95-181.  [isExternal] is absent from the two outer calls, so
    it is [undefined] there and the conditional of line 22 takes its
    else branch: [false]. *)
Definition getSectorWithCorner (cx cy innerRadius outerRadius
    cornerRadius : R) (forceCornerRadius : bool)
    (startAngle endAngle : R) : Path :=
  let sign := mathSign (endAngle - startAngle) in
  let so := getTangentCircle cx cy outerRadius startAngle sign false
                             cornerRadius in
  let soct := circleTangency so in
  let solt := lineTangency so in
  let sot := theta so in
  let eo := getTangentCircle cx cy outerRadius endAngle (- sign) false
                             cornerRadius in
  let eoct := circleTangency eo in
  let eolt := lineTangency eo in
  let eot := theta eo in
  let outerArcAngle := Rabs (startAngle - endAngle) - sot - eot in
  if outerArcAngle <? 0 then
    if forceCornerRadius then
      [ MoveTo solt;
        ArcBy cornerRadius cornerRadius 0 false true (cornerRadius * 2) 0;
        ArcBy cornerRadius cornerRadius 0 false true
              ((- cornerRadius) * 2) 0 ]
    else
      getSectorPath cx cy innerRadius outerRadius startAngle endAngle
  else
    let path :=
      [ MoveTo solt;
        ArcTo cornerRadius cornerRadius 0 false (sign <? 0) soct;
        ArcTo outerRadius outerRadius 0
              (outerArcAngle >? 180) (sign <? 0) eoct;
        ArcTo cornerRadius cornerRadius 0 false (sign <? 0) eolt ] in
    if innerRadius >? 0 then
      let si := getTangentCircle cx cy innerRadius startAngle sign true
                                 cornerRadius in
      let sict := circleTangency si in
      let silt := lineTangency si in
      let sit := theta si in
      let ei := getTangentCircle cx cy innerRadius endAngle (- sign) true
                                 cornerRadius in
      let eict := circleTangency ei in
      let eilt := lineTangency ei in
      let eit := theta ei in
      let innerArcAngle := Rabs (startAngle - endAngle) - sit - eit in
      if innerArcAngle <? 0 then
        path ++ [ LineTo (mkPoint cx cy); ClosePath ]
      else
        path ++
        [ LineTo eilt;
          ArcTo cornerRadius cornerRadius 0 false (sign <? 0) eict;
          ArcTo innerRadius innerRadius 0
                (innerArcAngle >? 180) (sign >? 0) sict;
          ArcTo cornerRadius cornerRadius 0 false (sign <? 0) silt;
          ClosePath ]
    else
      path ++ [ LineTo (mkPoint cx cy); ClosePath ].

(** Lines 210-240.  [None] is [return null]; [Some path] is the
    [<path d={path} />] element, of which only [d] is kept. *)
Definition render (props : Props) : option Path :=
  let cx := cx props in
  let cy := cy props in
  let innerRadius := innerRadius props in
  let outerRadius := outerRadius props in
  let cornerRadius := cornerRadius props in
  let forceCornerRadius := forceCornerRadius props in
  let startAngle := startAngle props in
  let endAngle := endAngle props in
  if (outerRadius <? innerRadius) || (startAngle =? endAngle) then None
  else
    let deltaRadius := outerRadius - innerRadius in
    let cr := getPercentValue cornerRadius deltaRadius 0 true in
    if (cr >? 0) && (Rabs (startAngle - endAngle) <? 360) then
      Some (getSectorWithCorner cx cy innerRadius outerRadius
              (Rmin cr (deltaRadius / 2)) forceCornerRadius
              startAngle endAngle)
    else
      Some (getSectorPath cx cy innerRadius outerRadius
              startAngle endAngle).

End Sector.

(** ** Quantities of the builders, as functions of their arguments

    The statements below speak about values that the source binds
    locally.  Each definition here repeats the expression of the line it
    names; the theorems relate them to the output of the builders. *)

Section Quantities.
Context `{U : Utils}.

(** [tempEndAngle], line 49. *)
Definition tempEndAngle (startAngle endAngle : R) : R :=
  startAngle + getDeltaAngle startAngle endAngle.

(** The four solver calls of [getSectorWithCorner]: start and end of
    the outer edge (lines 106-117), start and end of the inner edge
    (lines 149-160). *)
Definition startOuter (cx cy outerRadius cornerRadius
    startAngle endAngle : R) : TangentCircle :=
  getTangentCircle cx cy outerRadius startAngle
    (mathSign (endAngle - startAngle)) false cornerRadius.

Definition endOuter (cx cy outerRadius cornerRadius
    startAngle endAngle : R) : TangentCircle :=
  getTangentCircle cx cy outerRadius endAngle
    (- mathSign (endAngle - startAngle)) false cornerRadius.

Definition startInner (cx cy innerRadius cornerRadius
    startAngle endAngle : R) : TangentCircle :=
  getTangentCircle cx cy innerRadius startAngle
    (mathSign (endAngle - startAngle)) true cornerRadius.

Definition endInner (cx cy innerRadius cornerRadius
    startAngle endAngle : R) : TangentCircle :=
  getTangentCircle cx cy innerRadius endAngle
    (- mathSign (endAngle - startAngle)) true cornerRadius.

(** [outerArcAngle], line 119. *)
Definition outerArcAngle (cx cy outerRadius cornerRadius
    startAngle endAngle : R) : R :=
  Rabs (startAngle - endAngle)
  - theta (startOuter cx cy outerRadius cornerRadius startAngle endAngle)
  - theta (endOuter cx cy outerRadius cornerRadius startAngle endAngle).

(** [innerArcAngle], line 162. *)
Definition innerArcAngle (cx cy innerRadius cornerRadius
    startAngle endAngle : R) : R :=
  Rabs (startAngle - endAngle)
  - theta (startInner cx cy innerRadius cornerRadius startAngle endAngle)
  - theta (endInner cx cy innerRadius cornerRadius startAngle endAngle).

(** The three arcs of lines 137-141, which both non-degenerate outcomes
    of [getSectorWithCorner] start with. *)
Definition outerEdge (cx cy outerRadius cornerRadius
    startAngle endAngle : R) : Path :=
  let sign := mathSign (endAngle - startAngle) in
  let so := startOuter cx cy outerRadius cornerRadius startAngle endAngle in
  let eo := endOuter cx cy outerRadius cornerRadius startAngle endAngle in
  [ MoveTo (lineTangency so);
    ArcTo cornerRadius cornerRadius 0 false (sign <? 0)
          (circleTangency so);
    ArcTo outerRadius outerRadius 0
          (outerArcAngle cx cy outerRadius cornerRadius
                         startAngle endAngle >? 180)
          (sign <? 0) (circleTangency eo);
    ArcTo cornerRadius cornerRadius 0 false (sign <? 0)
          (lineTangency eo) ].

(** Lines 217-218 and 224: the corner radius that [render] passes to
    [getSectorWithCorner]. *)
Definition resolvedCornerRadius (props : Props) : R :=
  let deltaRadius := outerRadius props - innerRadius props in
  let cr := getPercentValue (cornerRadius props) deltaRadius 0 true in
  Rmin cr (deltaRadius / 2).

(** Line 221: the condition under which [render] calls
    [getSectorWithCorner]. *)
Definition roundedDispatch (props : Props) : Prop :=
  let deltaRadius := outerRadius props - innerRadius props in
  getPercentValue (cornerRadius props) deltaRadius 0 true > 0 /\
  Rabs (startAngle props - endAngle props) < 360.

End Quantities.

(** ** The imported utilities, as the specification describes them *)

Module Spec.

(** Modelled from the spec: the constant [RADIAN] of util/PolarUtils,
    not in the source file; "the degree to radian conversion
    constant". *)
Definition RADIAN : R := PI / 180.

(** Modelled from the spec: [polarToCartesian] of util/PolarUtils, not
    in the source file; it "converts polar coordinates (center, radius,
    angle-in-degrees) to Cartesian points".  The orientation of the
    angle is not given by the specification; its example (the point at
    90 degrees and radius 100 around the origin is [0,100]) fixes the
    counter-clockwise one in a frame whose y axis points up. *)
Definition polarToCartesian (cx cy radius angle : R) : Point :=
  mkPoint (cx + radius * cos (angle * RADIAN))
          (cy + radius * sin (angle * RADIAN)).

(** Modelled from the spec: [mathSign] of util/DataUtils, not in the
    source file; "a sign function returning -1, 0, or 1", which
    "returns 0 only when the difference is exactly 0". *)
Definition mathSign (value : R) : R :=
  if value =? 0 then 0 else if value >? 0 then 1 else -1.

(** Modelled from the spec: [getPercentValue] of util/DataUtils, not in
    the source file; it "resolves a corner-radius value that may be
    absolute or percentage-of-available-thickness into an absolute
    length, clamped to a base and bound".  The base is [defaultValue],
    the bound is [totalValue]; the clamp is applied when [validate] is
    set. *)
Definition getPercentValue (percent : CornerRadius)
    (totalValue defaultValue : R) (validate : bool) : R :=
  let value :=
    match percent with
    | Absolute v => v
    | Percent p => totalValue * p / 100
    end in
  if validate then Rmax defaultValue (Rmin value totalValue) else value.

End Spec.

Definition SpecUtils : Utils :=
  {| RADIAN := Spec.RADIAN;
     polarToCartesian := Spec.polarToCartesian;
     mathSign := Spec.mathSign;
     getPercentValue := Spec.getPercentValue |}.

(** ** Reading a path *)

(** The pen of a renderer: the start of the current subpath and the
    current point. *)
Definition penStep (pen : Point * Point) (c : PathCommand) : Point * Point :=
  let (start, current) := pen in
  match c with
  | MoveTo p => (p, p)
  | ArcTo _ _ _ _ _ p => (start, p)
  | ArcBy _ _ _ _ _ dx dy =>
      (start, mkPoint (x current + dx) (y current + dy))
  | LineTo p => (start, p)
  | ClosePath => (start, start)
  end.

(** The pen after a path that starts with a move. *)
Definition penAfter (path : Path) : option (Point * Point) :=
  match path with
  | MoveTo p :: rest => Some (fold_left penStep rest (p, p))
  | _ => None
  end.

Definition isClose (c : PathCommand) : bool :=
  match c with ClosePath => true | _ => false end.


(** The path ends with [Z]. *)
Definition endsWithClose (path : Path) : bool :=
  match rev path with
  | c :: _ => isClose c
  | [] => false
  end.

(** The last command of the path ends where its move started. *)
Definition returnsToStart (path : Path) : Prop :=
  match penAfter path with
  | Some (start, current) => current = start
  | None => False
  end.


(** [path] is a full circle of radius [r] around [c] drawn as two
    relative half-circle arcs: an arc of radius [r] whose end points are
    [2 * r] apart is a half circle around the middle of its chord, and
    the second arc, turning the same way, goes back along the other
    half. *)
Definition fullCircleAround (path : Path) (c : Point) (r : R) : Prop :=
  exists (p : Point) (large1 large2 sweep : bool) (dx dy : R),
    path = [ MoveTo p;
             ArcBy r r 0 large1 sweep dx dy;
             ArcBy r r 0 large2 sweep (- dx) (- dy) ] /\
    0 < r /\
    dx * dx + dy * dy = (2 * r) * (2 * r) /\
    x c = x p + dx / 2 /\
    y c = y p + dy / 2.

(** ** Default props *)

(** The props as a caller passes them: each one given or left out. *)
Record GivenProps : Type := mkGivenProps {
  given_cx : option R;
  given_cy : option R;
  given_innerRadius : option R;
  given_outerRadius : option R;
  given_startAngle : option R;
  given_endAngle : option R;
  given_cornerRadius : option CornerRadius;
  given_forceCornerRadius : option bool
}.

(** Lines 200-208, [static defaultProps].  [forceCornerRadius] has no
    default: left out it is [undefined], which the test of line 124 takes
    as false. *)
Definition defaultProps : Props :=
  {| cx := 0;
     cy := 0;
     innerRadius := 0;
     outerRadius := 0;
     startAngle := 0;
     endAngle := 0;
     cornerRadius := Absolute 0;
     forceCornerRadius := false |}.

Definition orDefault {A : Type} (given : option A) (default : A) : A :=
  match given with
  | Some value => value
  | None => default
  end.

(** [this.props] of a component with [defaultProps]: a prop that is left
    out takes its default. *)
Definition withDefaults (given : GivenProps) : Props :=
  {| cx := orDefault (given_cx given) (cx defaultProps);
     cy := orDefault (given_cy given) (cy defaultProps);
     innerRadius :=
       orDefault (given_innerRadius given) (innerRadius defaultProps);
     outerRadius :=
       orDefault (given_outerRadius given) (outerRadius defaultProps);
     startAngle :=
       orDefault (given_startAngle given) (startAngle defaultProps);
     endAngle := orDefault (given_endAngle given) (endAngle defaultProps);
     cornerRadius :=
       orDefault (given_cornerRadius given) (cornerRadius defaultProps);
     forceCornerRadius :=
       orDefault (given_forceCornerRadius given)
                 (forceCornerRadius defaultProps) |}.

(** ** What the properties assume of the imported utilities

    Each is a property of one import, named where a theorem needs it;
    [SpecUtils] has all of them. *)

Section UtilityLaws.
Context `{U : Utils}.

(** [mathSign] is the sign: 0 at 0, 1 above, -1 below. *)
Definition signUtility : Prop :=
  forall value : R,
    mathSign value =
    if value =? 0 then 0 else if value >? 0 then 1 else -1.

(** [RADIAN] is one degree in radians. *)
Definition degreeUtility : Prop := RADIAN = PI / 180.

(** [polarToCartesian] is the point at distance [radius] from the centre
    in the direction [angle], in degrees, turning one way or the
    other. *)
Definition polarUtility : Prop :=
  exists turn : R,
    (turn = 1 \/ turn = -1) /\
    forall cx cy radius angle : R,
      polarToCartesian cx cy radius angle =
      mkPoint (cx + radius * cos (turn * (angle * RADIAN)))
              (cy + radius * sin (turn * (angle * RADIAN))).

(** [getPercentValue] with [validate] set stays within its bound. *)
Definition boundedPercent : Prop :=
  forall (percent : CornerRadius) (totalValue : R),
    0 <= totalValue ->
    getPercentValue percent totalValue 0 true <= totalValue.

End UtilityLaws.

(** ** Geometry of points and paths *)

(** The square of the distance between two points. *)
Definition dist2 (p q : Point) : R :=
  (x p - x q) * (x p - x q) + (y p - y q) * (y p - y q).

Definition translatePoint (dx dy : R) (p : Point) : Point :=
  mkPoint (x p + dx) (y p + dy).

(** A translation moves the absolute points of a command and leaves
    radii, flags and relative offsets as they are. *)
Definition translateCommand (dx dy : R) (c : PathCommand) : PathCommand :=
  match c with
  | MoveTo p => MoveTo (translatePoint dx dy p)
  | ArcTo rx ry rot large sweep p =>
      ArcTo rx ry rot large sweep (translatePoint dx dy p)
  | ArcBy rx ry rot large sweep ex ey => ArcBy rx ry rot large sweep ex ey
  | LineTo p => LineTo (translatePoint dx dy p)
  | ClosePath => ClosePath
  end.

Definition translatePath (dx dy : R) (path : Path) : Path :=
  map (translateCommand dx dy) path.

(** The props with the centre moved by [(dx, dy)]. *)
Definition moveCentre (dx dy : R) (props : Props) : Props :=
  {| cx := cx props + dx;
     cy := cy props + dy;
     innerRadius := innerRadius props;
     outerRadius := outerRadius props;
     startAngle := startAngle props;
     endAngle := endAngle props;
     cornerRadius := cornerRadius props;
     forceCornerRadius := forceCornerRadius props |}.

(** The props with other rounding options. *)
Definition withRounding (corner : CornerRadius) (force : bool)
    (props : Props) : Props :=
  {| cx := cx props;
     cy := cy props;
     innerRadius := innerRadius props;
     outerRadius := outerRadius props;
     startAngle := startAngle props;
     endAngle := endAngle props;
     cornerRadius := corner;
     forceCornerRadius := force |}.

(** The props with another end angle. *)
Definition withEndAngle (angle : R) (props : Props) : Props :=
  {| cx := cx props;
     cy := cy props;
     innerRadius := innerRadius props;
     outerRadius := outerRadius props;
     startAngle := startAngle props;
     endAngle := angle;
     cornerRadius := cornerRadius props;
     forceCornerRadius := forceCornerRadius props |}.

(** An arc command is a circle arc ([rx = ry]) without rotation and with
    a radius that is not negative; other commands pass. *)
Definition circleArc (c : PathCommand) : Prop :=
  match c with
  | ArcTo rx ry rot _ _ _ => rx = ry /\ rot = 0 /\ 0 <= rx
  | ArcBy rx ry rot _ _ _ _ => rx = ry /\ rot = 0 /\ 0 <= rx
  | _ => True
  end.

(** The relative arc [a]. *)
Definition isRelativeArc (c : PathCommand) : bool :=
  match c with ArcBy _ _ _ _ _ _ _ => true | _ => false end.

(** * Properties *)

(** ** The boolean comparisons decide the order of [R] *)

Lemma Rltb_spec (a b : R) : reflect (a < b) (a <? b).
Proof. unfold Rltb. destruct (Rlt_dec a b); constructor; assumption. Qed.

Lemma Rleb_spec (a b : R) : reflect (a <= b) (a <=? b).
Proof. unfold Rleb. destruct (Rle_dec a b); constructor; assumption. Qed.

Lemma Rgtb_spec (a b : R) : reflect (a > b) (a >? b).
Proof. unfold Rgtb. apply Rltb_spec. Qed.

Lemma Reqb_spec (a b : R) : reflect (a = b) (a =? b).
Proof. unfold Reqb. destruct (Req_dec_T a b); constructor; assumption. Qed.

Lemma Rltb_true (a b : R) : a < b -> (a <? b) = true.
Proof. destruct (Rltb_spec a b); [reflexivity | contradiction]. Qed.

Lemma Rltb_false (a b : R) : ~ a < b -> (a <? b) = false.
Proof. destruct (Rltb_spec a b); [contradiction | reflexivity]. Qed.

Lemma Rgtb_true (a b : R) : a > b -> (a >? b) = true.
Proof. apply Rltb_true. Qed.

Lemma Rgtb_false (a b : R) : ~ a > b -> (a >? b) = false.
Proof. apply Rltb_false. Qed.

Lemma Rleb_true (a b : R) : a <= b -> (a <=? b) = true.
Proof. destruct (Rleb_spec a b); [reflexivity | contradiction]. Qed.

Lemma Rleb_false (a b : R) : ~ a <= b -> (a <=? b) = false.
Proof. destruct (Rleb_spec a b); [contradiction | reflexivity]. Qed.

Lemma Reqb_true (a b : R) : a = b -> (a =? b) = true.
Proof. destruct (Reqb_spec a b); [reflexivity | contradiction]. Qed.

Lemma Reqb_false (a b : R) : a <> b -> (a =? b) = false.
Proof. destruct (Reqb_spec a b); [contradiction | reflexivity]. Qed.

(** [a <= b] is the complement of [a > b], as line 85 uses it. *)
Lemma Rleb_negb_Rgtb (a b : R) : (a <=? b) = negb (a >? b).
Proof.
  destruct (Rleb_spec a b), (Rgtb_spec a b); simpl; try reflexivity; lra.
Qed.

(** Replaces a comparison by its value when [lra] knows it. *)
Ltac decide_cmp :=
  repeat first
    [ rewrite Rltb_true by lra | rewrite Rltb_false by lra
    | rewrite Rgtb_true by lra | rewrite Rgtb_false by lra
    | rewrite Rleb_true by lra | rewrite Rleb_false by lra
    | rewrite Reqb_true by lra | rewrite Reqb_false by lra ].

(** ** The three outcomes of [render] *)

Section RenderOutcomes.
Context `{U : Utils}.
Variable props : Props.

Lemma render_null :
  outerRadius props < innerRadius props \/
  startAngle props = endAngle props ->
  render props = None.
Proof.
  intros H. unfold render.
  destruct (Rltb_spec (outerRadius props) (innerRadius props));
    [reflexivity |].
  destruct (Reqb_spec (startAngle props) (endAngle props));
    [reflexivity |].
  tauto.
Qed.

Lemma render_rounded :
  ~ outerRadius props < innerRadius props ->
  startAngle props <> endAngle props ->
  roundedDispatch props ->
  render props =
  Some (getSectorWithCorner (cx props) (cy props) (innerRadius props)
          (outerRadius props) (resolvedCornerRadius props)
          (forceCornerRadius props) (startAngle props) (endAngle props)).
Proof.
  intros Hr Ha [Hc Hs]. unfold render, resolvedCornerRadius.
  rewrite (Rltb_false _ _ Hr), (Reqb_false _ _ Ha). simpl.
  rewrite (Rgtb_true _ _ Hc), (Rltb_true _ _ Hs). reflexivity.
Qed.

Lemma render_sharp :
  ~ outerRadius props < innerRadius props ->
  startAngle props <> endAngle props ->
  ~ roundedDispatch props ->
  render props =
  Some (getSectorPath (cx props) (cy props) (innerRadius props)
          (outerRadius props) (startAngle props) (endAngle props)).
Proof.
  intros Hr Ha Hd. unfold render.
  rewrite (Rltb_false _ _ Hr), (Reqb_false _ _ Ha). simpl.
  unfold roundedDispatch in Hd.
  destruct (Rgtb_spec
              (getPercentValue (cornerRadius props)
                 (outerRadius props - innerRadius props) 0 true) 0);
    simpl; [| reflexivity].
  destruct (Rltb_spec (Rabs (startAngle props - endAngle props)) 360);
    [| reflexivity].
  tauto.
Qed.

Lemma render_some :
  ~ outerRadius props < innerRadius props ->
  startAngle props <> endAngle props ->
  exists path, render props = Some path.
Proof.
  intros Hr Ha. unfold render.
  rewrite (Rltb_false _ _ Hr), (Reqb_false _ _ Ha). simpl.
  match goal with |- context [if ?b then _ else _] => destruct b end;
    eexists; reflexivity.
Qed.

End RenderOutcomes.

(** ** The sign function of the specification *)

Lemma spec_mathSign_pos (v : R) : 0 < v -> Spec.mathSign v = 1.
Proof. intros H. unfold Spec.mathSign. decide_cmp. reflexivity. Qed.

Lemma spec_mathSign_neg (v : R) : v < 0 -> Spec.mathSign v = -1.
Proof. intros H. unfold Spec.mathSign. decide_cmp. reflexivity. Qed.

Lemma spec_mathSign_zero : Spec.mathSign 0 = 0.
Proof. unfold Spec.mathSign. decide_cmp. reflexivity. Qed.

Lemma spec_mathSign_zero_iff (v : R) : Spec.mathSign v = 0 <-> v = 0.
Proof.
  split.
  - intros H. destruct (Rtotal_order v 0) as [Hn | [Hz | Hp]].
    + rewrite (spec_mathSign_neg _ Hn) in H. lra.
    + exact Hz.
    + rewrite (spec_mathSign_pos _ Hp) in H. lra.
  - intros ->. apply spec_mathSign_zero.
Qed.

(** C1.  [render] returns [null] exactly when
    [outerRadius < innerRadius] or [startAngle === endAngle]; on every
    other input it returns a path. *)
Theorem render_null_iff `{U : Utils} (props : Props) :
  (render props = None <->
   outerRadius props < innerRadius props \/
   startAngle props = endAngle props) /\
  (~ (outerRadius props < innerRadius props \/
      startAngle props = endAngle props) <->
   exists path, render props = Some path).
Proof.
  assert (Hnone : render props = None ->
                  outerRadius props < innerRadius props \/
                  startAngle props = endAngle props).
  { intros Hn.
    destruct (Rlt_dec (outerRadius props) (innerRadius props)) as [|Hr];
      [left; assumption |].
    destruct (Req_dec_T (startAngle props) (endAngle props)) as [|Ha];
      [right; assumption |].
    destruct (render_some props Hr Ha) as [path Hp]. congruence. }
  split; [split; [exact Hnone | apply render_null] |].
  split.
  - intros H. apply render_some; tauto.
  - intros [path Hp] H. rewrite (render_null props H) in Hp. discriminate.
Qed.

(** ** The utilities of the specification at the values the examples use *)

Lemma spec_polarToCartesian_0 (cx cy radius : R) :
  Spec.polarToCartesian cx cy radius 0 = mkPoint (cx + radius) cy.
Proof.
  unfold Spec.polarToCartesian. rewrite Rmult_0_l, cos_0, sin_0.
  f_equal; lra.
Qed.

Lemma spec_polarToCartesian_90 (cx cy radius : R) :
  Spec.polarToCartesian cx cy radius 90 = mkPoint cx (cy + radius).
Proof.
  unfold Spec.polarToCartesian, Spec.RADIAN.
  replace (90 * (PI / 180)) with (PI / 2) by lra.
  rewrite cos_PI2, sin_PI2. f_equal; lra.
Qed.

Lemma spec_getDeltaAngle_increasing (startAngle endAngle : R) :
  startAngle < endAngle ->
  @getDeltaAngle SpecUtils startAngle endAngle =
  Rmin (endAngle - startAngle) 359.999.
Proof.
  intros H. unfold getDeltaAngle. simpl mathSign.
  rewrite spec_mathSign_pos by lra.
  rewrite Rabs_pos_eq by lra. lra.
Qed.

Lemma spec_getDeltaAngle_decreasing (startAngle endAngle : R) :
  endAngle < startAngle ->
  @getDeltaAngle SpecUtils startAngle endAngle =
  - Rmin (startAngle - endAngle) 359.999.
Proof.
  intros H. unfold getDeltaAngle. simpl mathSign.
  rewrite spec_mathSign_neg by lra.
  rewrite Rabs_left by lra.
  replace (- (endAngle - startAngle)) with (startAngle - endAngle) by lra.
  lra.
Qed.

(** C3.  [getSectorPath] moves to the outer start point and draws the
    outer arc, whose large-arc flag is set iff [|deltaAngle| > 180] and
    whose sweep flag is set iff [startAngle > tempEndAngle].  With
    [innerRadius > 0] it goes on with a line to the inner end point, the
    inner arc (sweep flag set iff [startAngle <= tempEndAngle], the
    complement of the outer one) and a close; otherwise with a line to
    the centre and a close.  With the utilities of the specification,
    centre (0,0), radii 0 and 100 and angles 0 and 90 give
    [M 100,0 A 100,100,0,0,0,0,100 L 0,0 Z]. *)
Theorem getSectorPath_commands :
  (forall (U : Utils) (cx cy innerRadius outerRadius startAngle endAngle : R),
     exists largeArcFlag sweepFlag : bool,
       (largeArcFlag = true <->
        Rabs (getDeltaAngle startAngle endAngle) > 180) /\
       (sweepFlag = true <->
        startAngle > tempEndAngle startAngle endAngle) /\
       (negb sweepFlag = true <->
        startAngle <= tempEndAngle startAngle endAngle) /\
       (innerRadius > 0 ->
        getSectorPath cx cy innerRadius outerRadius startAngle endAngle =
        [ MoveTo (polarToCartesian cx cy outerRadius startAngle);
          ArcTo outerRadius outerRadius 0 largeArcFlag sweepFlag
            (polarToCartesian cx cy outerRadius
               (tempEndAngle startAngle endAngle));
          LineTo (polarToCartesian cx cy innerRadius
                    (tempEndAngle startAngle endAngle));
          ArcTo innerRadius innerRadius 0 largeArcFlag (negb sweepFlag)
            (polarToCartesian cx cy innerRadius startAngle);
          ClosePath ]) /\
       (~ innerRadius > 0 ->
        getSectorPath cx cy innerRadius outerRadius startAngle endAngle =
        [ MoveTo (polarToCartesian cx cy outerRadius startAngle);
          ArcTo outerRadius outerRadius 0 largeArcFlag sweepFlag
            (polarToCartesian cx cy outerRadius
               (tempEndAngle startAngle endAngle));
          LineTo (mkPoint cx cy);
          ClosePath ])) /\
  @getSectorPath SpecUtils 0 0 0 100 0 90 =
  [ MoveTo (mkPoint 100 0);
    ArcTo 100 100 0 false false (mkPoint 0 100);
    LineTo (mkPoint 0 0);
    ClosePath ].
Proof.
  split.
  - intros U cx cy innerRadius outerRadius startAngle endAngle.
    exists (Rabs (getDeltaAngle startAngle endAngle) >? 180),
           (startAngle >? tempEndAngle startAngle endAngle).
    split; [| split; [| split; [| split]]].
    + destruct (Rgtb_spec (Rabs (getDeltaAngle startAngle endAngle)) 180);
        split; intros; [assumption | reflexivity | discriminate
                       | contradiction].
    + destruct (Rgtb_spec startAngle (tempEndAngle startAngle endAngle));
        split; intros; [assumption | reflexivity | discriminate
                       | contradiction].
    + rewrite <- Rleb_negb_Rgtb.
      destruct (Rleb_spec startAngle (tempEndAngle startAngle endAngle));
        split; intros; [assumption | reflexivity | discriminate
                       | contradiction].
    + intros Hin. unfold getSectorPath.
      rewrite (Rgtb_true _ _ Hin). rewrite Rleb_negb_Rgtb. reflexivity.
    + intros Hin. unfold getSectorPath.
      rewrite (Rgtb_false _ _ Hin). reflexivity.
  - unfold getSectorPath.
    rewrite spec_getDeltaAngle_increasing by lra.
    replace (Rmin (90 - 0) 359.999) with 90 by (rewrite Rmin_left; lra).
    replace (0 + 90) with 90 by lra.
    rewrite (Rabs_pos_eq 90) by lra.
    simpl polarToCartesian.
    rewrite spec_polarToCartesian_0, spec_polarToCartesian_90.
    decide_cmp. simpl.
    replace (0 + 100) with 100 by lra. reflexivity.
Qed.

(** C5.  [getTangentCircle]: [centerRadius] is
    [radius + cornerRadius * (isExternal ? 1 : -1)]; [theta] is the
    inverse sine of [cornerRadius / centerRadius] divided by [RADIAN],
    that is, in degrees ([* 180 / PI] for the constant of the
    specification); the circle tangency is the polar point at [radius]
    and [angle + sign * theta]; the line tangency is the polar point at
    [centerRadius * cos(theta in radians)] and [angle]. *)
Theorem getTangentCircle_solution `{U : Utils}
    (cx cy radius angle sign : R) (isExternal : bool) (cornerRadius : R) :
  let centerRadius :=
    radius + cornerRadius * (if isExternal then 1 else -1) in
  let t := getTangentCircle cx cy radius angle sign isExternal cornerRadius in
  centerRadiusOf radius isExternal cornerRadius = centerRadius /\
  theta t = asin (cornerRadius / centerRadius) / RADIAN /\
  theta (@getTangentCircle SpecUtils cx cy radius angle sign isExternal
           cornerRadius) =
    asin (cornerRadius / centerRadius) * 180 / PI /\
  circleTangency t = polarToCartesian cx cy radius (angle + sign * theta t) /\
  lineTangency t =
    polarToCartesian cx cy (centerRadius * cos (theta t * RADIAN)) angle /\
  (RADIAN <> 0 ->
   lineTangency t =
     polarToCartesian cx cy
       (centerRadius * cos (asin (cornerRadius / centerRadius))) angle).
Proof.
  intros centerRadius t.
  assert (Hc : centerRadiusOf radius isExternal cornerRadius = centerRadius).
  { unfold centerRadiusOf, centerRadius. apply Rplus_comm. }
  subst t. unfold getTangentCircle. simpl. rewrite !Hc.
  repeat split.
  - unfold Spec.RADIAN. pose proof PI_RGT_0. field. lra.
  - intros Hrad.
    replace (asin (cornerRadius / centerRadius) / RADIAN * RADIAN)
      with (asin (cornerRadius / centerRadius)) by (field; assumption).
    reflexivity.
Qed.

(** ** The outcomes of [getSectorWithCorner] *)

Section CornerOutcomes.
Context `{U : Utils}.
Variables cx cy innerRadius outerRadius cornerRadius : R.
Variable forceCornerRadius : bool.
Variables startAngle endAngle : R.

Let outerArc :=
  outerArcAngle cx cy outerRadius cornerRadius startAngle endAngle.
Let innerArc :=
  innerArcAngle cx cy innerRadius cornerRadius startAngle endAngle.
Let so := startOuter cx cy outerRadius cornerRadius startAngle endAngle.
Let si := startInner cx cy innerRadius cornerRadius startAngle endAngle.
Let ei := endInner cx cy innerRadius cornerRadius startAngle endAngle.
Let sign := mathSign (endAngle - startAngle).
Let result :=
  getSectorWithCorner cx cy innerRadius outerRadius cornerRadius
    forceCornerRadius startAngle endAngle.

Lemma corner_forced :
  outerArc < 0 -> forceCornerRadius = true ->
  result =
  [ MoveTo (lineTangency so);
    ArcBy cornerRadius cornerRadius 0 false true (cornerRadius * 2) 0;
    ArcBy cornerRadius cornerRadius 0 false true
          ((- cornerRadius) * 2) 0 ].
Proof.
  intros Ho Hf. subst result outerArc so.
  unfold getSectorWithCorner, outerArcAngle, startOuter, endOuter in *.
  cbv zeta. rewrite (Rltb_true _ _ Ho), Hf. reflexivity.
Qed.

Lemma corner_sharp :
  outerArc < 0 -> forceCornerRadius = false ->
  result =
  getSectorPath cx cy innerRadius outerRadius startAngle endAngle.
Proof.
  intros Ho Hf. subst result outerArc.
  unfold getSectorWithCorner, outerArcAngle, startOuter, endOuter in *.
  cbv zeta. rewrite (Rltb_true _ _ Ho), Hf. reflexivity.
Qed.

Lemma corner_no_inner :
  ~ outerArc < 0 -> ~ innerRadius > 0 ->
  result =
  outerEdge cx cy outerRadius cornerRadius startAngle endAngle ++
  [ LineTo (mkPoint cx cy); ClosePath ].
Proof.
  intros Ho Hi. subst result outerArc.
  unfold getSectorWithCorner, outerEdge, outerArcAngle,
    startOuter, endOuter in *.
  cbv zeta. rewrite (Rltb_false _ _ Ho), (Rgtb_false _ _ Hi).
  reflexivity.
Qed.

Lemma corner_inner_short :
  ~ outerArc < 0 -> innerRadius > 0 -> innerArc < 0 ->
  result =
  outerEdge cx cy outerRadius cornerRadius startAngle endAngle ++
  [ LineTo (mkPoint cx cy); ClosePath ].
Proof.
  intros Ho Hi Hs. subst result outerArc innerArc.
  unfold getSectorWithCorner, outerEdge, outerArcAngle, innerArcAngle,
    startOuter, endOuter, startInner, endInner in *.
  cbv zeta. rewrite (Rltb_false _ _ Ho), (Rgtb_true _ _ Hi).
  rewrite (Rltb_true _ _ Hs). reflexivity.
Qed.

Lemma corner_inner_rounded :
  ~ outerArc < 0 -> innerRadius > 0 -> ~ innerArc < 0 ->
  result =
  outerEdge cx cy outerRadius cornerRadius startAngle endAngle ++
  [ LineTo (lineTangency ei);
    ArcTo cornerRadius cornerRadius 0 false (sign <? 0)
          (circleTangency ei);
    ArcTo innerRadius innerRadius 0 (innerArc >? 180) (sign >? 0)
          (circleTangency si);
    ArcTo cornerRadius cornerRadius 0 false (sign <? 0)
          (lineTangency si);
    ClosePath ].
Proof.
  intros Ho Hi Hs. subst result outerArc innerArc si ei sign.
  unfold getSectorWithCorner, outerEdge, outerArcAngle, innerArcAngle,
    startOuter, endOuter, startInner, endInner in *.
  cbv zeta. rewrite (Rltb_false _ _ Ho), (Rgtb_true _ _ Hi).
  rewrite (Rltb_false _ _ Hs). reflexivity.
Qed.

End CornerOutcomes.

(** ** The solver with the utilities of the specification *)

(** No corner takes more than a quarter turn. *)
Lemma spec_theta_le_90 (cx cy radius angle sign : R) (isExternal : bool)
    (cornerRadius : R) :
  theta (@getTangentCircle SpecUtils cx cy radius angle sign isExternal
           cornerRadius) <= 90.
Proof.
  unfold getTangentCircle. simpl. unfold Spec.RADIAN.
  set (a := asin _).
  assert (Ha : a <= PI / 2) by apply asin_bound.
  pose proof PI_RGT_0 as Hpi.
  apply (Rmult_le_reg_r (PI / 180)); [lra |].
  replace (a / (PI / 180) * (PI / 180)) with a by (field; lra).
  lra.
Qed.

(** A corner radius of half the outer radius takes a quarter turn. *)
Lemma spec_theta_100_50 (cx cy angle sign : R) :
  theta (@getTangentCircle SpecUtils cx cy 100 angle sign false 50) = 90.
Proof.
  unfold getTangentCircle, centerRadiusOf. simpl. unfold Spec.RADIAN.
  replace (50 / (50 * -1 + 100)) with 1 by (field; lra).
  rewrite asin_1. pose proof PI_RGT_0. field. lra.
Qed.

Lemma spec_outerArcAngle_100_50_0_2 :
  @outerArcAngle SpecUtils 0 0 100 50 0 2 = -178.
Proof.
  unfold outerArcAngle, startOuter, endOuter.
  rewrite !spec_theta_100_50.
  rewrite Rabs_left by lra. lra.
Qed.

Lemma spec_lineTangency_100_50 (sign : R) :
  lineTangency (@getTangentCircle SpecUtils 0 0 100 0 sign false 50) =
  mkPoint 0 0.
Proof.
  pose proof (spec_theta_100_50 0 0 0 sign) as Ht.
  unfold getTangentCircle in *. cbn [theta lineTangency] in *.
  rewrite Ht.
  change (@polarToCartesian SpecUtils) with Spec.polarToCartesian.
  change (@RADIAN SpecUtils) with Spec.RADIAN.
  rewrite spec_polarToCartesian_0. unfold Spec.RADIAN.
  replace (90 * (PI / 180)) with (PI / 2) by lra.
  rewrite cos_PI2. f_equal; lra.
Qed.

(** C4, as stated, fails: with centre (0,0), radii 0 and 100, corner
    radius 50 and angles 0 and 2, [outerArcAngle] is negative and the
    start line tangency point is (0,0); with [forceCornerRadius] the
    result is [M 0,0 a 50,50,0,0,1,100,0 a 50,50,0,0,1,-100,0], a circle
    around (50,0) and not around (0,0). *)
Lemma forced_circle_centre_counterexample :
  @outerArcAngle SpecUtils 0 0 100 50 0 2 < 0 /\
  lineTangency (@startOuter SpecUtils 0 0 100 50 0 2) = mkPoint 0 0 /\
  @getSectorWithCorner SpecUtils 0 0 0 100 50 true 0 2 =
    [ MoveTo (mkPoint 0 0);
      ArcBy 50 50 0 false true 100 0;
      ArcBy 50 50 0 false true (- 100) 0 ] /\
  fullCircleAround
    (@getSectorWithCorner SpecUtils 0 0 0 100 50 true 0 2)
    (mkPoint 50 0) 50 /\
  ~ fullCircleAround
      (@getSectorWithCorner SpecUtils 0 0 0 100 50 true 0 2)
      (lineTangency (@startOuter SpecUtils 0 0 100 50 0 2)) 50.
Proof.
  assert (Ho : @outerArcAngle SpecUtils 0 0 100 50 0 2 < 0).
  { rewrite spec_outerArcAngle_100_50_0_2. lra. }
  assert (Hs : lineTangency (@startOuter SpecUtils 0 0 100 50 0 2) =
               mkPoint 0 0).
  { unfold startOuter. apply spec_lineTangency_100_50. }
  assert (Hp : @getSectorWithCorner SpecUtils 0 0 0 100 50 true 0 2 =
               [ MoveTo (mkPoint 0 0);
                 ArcBy 50 50 0 false true 100 0;
                 ArcBy 50 50 0 false true (- 100) 0 ]).
  { rewrite (corner_forced _ _ _ _ _ _ _ _ Ho eq_refl), Hs.
    replace (50 * 2) with 100 by lra.
    replace (- (50) * 2) with (- 100) by lra.
    reflexivity. }
  split; [exact Ho |]. split; [exact Hs |]. split; [exact Hp |].
  rewrite Hp, Hs. split.
  - exists (mkPoint 0 0), false, false, true, 100, 0.
    replace (- 0) with 0 by lra. simpl.
    repeat split; lra.
  - intros (p & l1 & l2 & s & dx & dy & Hpath & _ & _ & Hx & _).
    injection Hpath; intros; subst p dx. simpl in Hx. lra.
Qed.

(** C4, amended.  When [outerArcAngle] is negative and the corner radius
    is positive: with [forceCornerRadius] the result is a move to the
    start line tangency point followed by two relative half-circle arcs,
    a closed full circle of radius [cornerRadius] that starts at that
    point and lies around the point [cornerRadius] to its right; without
    it the result is that of [getSectorPath] on the same arguments. *)
Theorem getSectorWithCorner_too_short `{U : Utils}
    (cx cy innerRadius outerRadius cornerRadius : R)
    (forceCornerRadius : bool) (startAngle endAngle : R)
    (Hshort : outerArcAngle cx cy outerRadius cornerRadius
                startAngle endAngle < 0)
    (Hpos : 0 < cornerRadius) :
  let solt :=
    lineTangency
      (startOuter cx cy outerRadius cornerRadius startAngle endAngle) in
  let result :=
    getSectorWithCorner cx cy innerRadius outerRadius cornerRadius
      forceCornerRadius startAngle endAngle in
  (forceCornerRadius = true ->
   result =
     [ MoveTo solt;
       ArcBy cornerRadius cornerRadius 0 false true (cornerRadius * 2) 0;
       ArcBy cornerRadius cornerRadius 0 false true
             ((- cornerRadius) * 2) 0 ] /\
   fullCircleAround result
     (mkPoint (x solt + cornerRadius) (y solt)) cornerRadius /\
   returnsToStart result) /\
  (forceCornerRadius = false ->
   result = getSectorPath cx cy innerRadius outerRadius startAngle endAngle).
Proof.
  intros solt result. split.
  - intros Hf. subst result.
    rewrite (corner_forced _ _ _ _ _ _ _ _ Hshort Hf). fold solt.
    split; [reflexivity |]. split.
    + exists solt, false, false, true, (cornerRadius * 2), 0.
      split; [| split; [exact Hpos | split; [ring | simpl; split; lra]]].
      replace (- cornerRadius * 2) with (- (cornerRadius * 2)) by ring.
      replace (- 0) with 0 by ring.
      reflexivity.
    + unfold returnsToStart. simpl.
      destruct solt as [sx sy]. simpl. f_equal; ring.
  - intros Hf. apply corner_sharp; assumption.
Qed.

Lemma getSectorWithCorner_too_short_witness :
  @outerArcAngle SpecUtils 0 0 100 50 0 2 < 0 /\
  0 < 50 /\
  fullCircleAround
    (@getSectorWithCorner SpecUtils 0 0 0 100 50 true 0 2)
    (mkPoint
       (x (lineTangency (@startOuter SpecUtils 0 0 100 50 0 2)) + 50)
       (y (lineTangency (@startOuter SpecUtils 0 0 100 50 0 2))))
    50 /\
  @getSectorWithCorner SpecUtils 0 0 0 100 50 false 0 2 =
  @getSectorPath SpecUtils 0 0 0 100 0 2.
Proof.
  assert (Ho : @outerArcAngle SpecUtils 0 0 100 50 0 2 < 0).
  { rewrite spec_outerArcAngle_100_50_0_2. lra. }
  assert (Hp : 0 < 50) by lra.
  split; [exact Ho |]. split; [exact Hp |]. split.
  - apply (getSectorWithCorner_too_short (U := SpecUtils) 0 0 0 100 50 true
             0 2 Ho Hp).
    reflexivity.
  - apply (getSectorWithCorner_too_short (U := SpecUtils) 0 0 0 100 50 false
             0 2 Ho Hp).
    reflexivity.
Defined.

(** C6.  In [getSectorWithCorner] with [innerRadius > 0] and
    [outerArcAngle >= 0], the outer edge is three arcs whose sweep flag
    is set iff [sign < 0].  If [innerArcAngle] is negative the path then
    goes by a straight line to the centre and closes; otherwise the inner
    edge follows as a line and three arcs, the two corner arcs with sweep
    flag set iff [sign < 0] and the main inner arc with sweep flag set
    iff [sign > 0], and a close. *)
Theorem getSectorWithCorner_inner_edge `{U : Utils}
    (cx cy innerRadius outerRadius cornerRadius : R)
    (forceCornerRadius : bool) (startAngle endAngle : R)
    (Hinner : innerRadius > 0)
    (Houter : outerArcAngle cx cy outerRadius cornerRadius
                startAngle endAngle >= 0) :
  let sign := mathSign (endAngle - startAngle) in
  let so := startOuter cx cy outerRadius cornerRadius startAngle endAngle in
  let eo := endOuter cx cy outerRadius cornerRadius startAngle endAngle in
  let si := startInner cx cy innerRadius cornerRadius startAngle endAngle in
  let ei := endInner cx cy innerRadius cornerRadius startAngle endAngle in
  let outerArc :=
    outerArcAngle cx cy outerRadius cornerRadius startAngle endAngle in
  let innerArc :=
    innerArcAngle cx cy innerRadius cornerRadius startAngle endAngle in
  let result :=
    getSectorWithCorner cx cy innerRadius outerRadius cornerRadius
      forceCornerRadius startAngle endAngle in
  exists cornerSweep innerSweep : bool,
    (cornerSweep = true <-> sign < 0) /\
    (innerSweep = true <-> sign > 0) /\
    (innerArc < 0 ->
     result =
       [ MoveTo (lineTangency so);
         ArcTo cornerRadius cornerRadius 0 false cornerSweep
               (circleTangency so);
         ArcTo outerRadius outerRadius 0 (outerArc >? 180) cornerSweep
               (circleTangency eo);
         ArcTo cornerRadius cornerRadius 0 false cornerSweep
               (lineTangency eo);
         LineTo (mkPoint cx cy);
         ClosePath ]) /\
    (innerArc >= 0 ->
     result =
       [ MoveTo (lineTangency so);
         ArcTo cornerRadius cornerRadius 0 false cornerSweep
               (circleTangency so);
         ArcTo outerRadius outerRadius 0 (outerArc >? 180) cornerSweep
               (circleTangency eo);
         ArcTo cornerRadius cornerRadius 0 false cornerSweep
               (lineTangency eo);
         LineTo (lineTangency ei);
         ArcTo cornerRadius cornerRadius 0 false cornerSweep
               (circleTangency ei);
         ArcTo innerRadius innerRadius 0 (innerArc >? 180) innerSweep
               (circleTangency si);
         ArcTo cornerRadius cornerRadius 0 false cornerSweep
               (lineTangency si);
         ClosePath ]).
Proof.
  intros sign so eo si ei outerArc innerArc result.
  assert (Ho : ~ outerArc < 0) by (subst outerArc; lra).
  exists (sign <? 0), (sign >? 0).
  split; [| split; [| split]].
  - destruct (Rltb_spec sign 0); split; intros;
      [assumption | reflexivity | discriminate | contradiction].
  - destruct (Rgtb_spec sign 0); split; intros;
      [assumption | reflexivity | discriminate | contradiction].
  - intros Hs. subst result.
    rewrite (corner_inner_short _ _ _ _ _ _ _ _ Ho Hinner Hs).
    reflexivity.
  - intros Hs. subst result.
    assert (Hs' : ~ innerArc < 0) by lra.
    rewrite (corner_inner_rounded _ _ _ _ _ _ _ _ Ho Hinner Hs').
    reflexivity.
Qed.

Lemma spec_outerArcAngle_0_200 (cx cy outerRadius cornerRadius : R) :
  @outerArcAngle SpecUtils cx cy outerRadius cornerRadius 0 200 >= 20.
Proof.
  unfold outerArcAngle, startOuter, endOuter.
  pose proof (spec_theta_le_90 cx cy outerRadius 0
                (@mathSign SpecUtils (200 - 0)) false cornerRadius).
  pose proof (spec_theta_le_90 cx cy outerRadius 200
                (- @mathSign SpecUtils (200 - 0)) false cornerRadius).
  rewrite Rabs_left by lra. lra.
Qed.

Lemma spec_innerArcAngle_0_200 (cx cy innerRadius cornerRadius : R) :
  @innerArcAngle SpecUtils cx cy innerRadius cornerRadius 0 200 >= 20.
Proof.
  unfold innerArcAngle, startInner, endInner.
  pose proof (spec_theta_le_90 cx cy innerRadius 0
                (@mathSign SpecUtils (200 - 0)) true cornerRadius).
  pose proof (spec_theta_le_90 cx cy innerRadius 200
                (- @mathSign SpecUtils (200 - 0)) true cornerRadius).
  rewrite Rabs_left by lra. lra.
Qed.

Lemma getSectorWithCorner_inner_edge_witness :
  50 > 0 /\
  @outerArcAngle SpecUtils 0 0 100 25 0 200 >= 0 /\
  endsWithClose (@getSectorWithCorner SpecUtils 0 0 50 100 25 false 0 200)
  = true.
Proof.
  assert (Hi : 50 > 0) by lra.
  assert (Ho : @outerArcAngle SpecUtils 0 0 100 25 0 200 >= 0).
  { pose proof (spec_outerArcAngle_0_200 0 0 100 25). lra. }
  split; [exact Hi |]. split; [exact Ho |].
  destruct (getSectorWithCorner_inner_edge (U := SpecUtils)
              0 0 50 100 25 false 0 200 Hi Ho)
    as (cornerSweep & innerSweep & _ & _ & _ & Hrounded).
  rewrite Hrounded; [reflexivity |].
  pose proof (spec_innerArcAngle_0_200 0 0 50 25). lra.
Defined.

(** ** The dispatch of [render] *)

Lemma roundedDispatch_dec `{U : Utils} (props : Props) :
  {roundedDispatch props} + {~ roundedDispatch props}.
Proof.
  unfold roundedDispatch.
  destruct (Rgt_dec
              (getPercentValue (cornerRadius props)
                 (outerRadius props - innerRadius props) 0 true) 0);
    [| right; tauto].
  destruct (Rlt_dec (Rabs (startAngle props - endAngle props)) 360);
    [left | right]; tauto.
Qed.

(** Every result of [render] is [null], the sharp path, or the rounded
    path for the resolved corner radius. *)
Lemma render_cases `{U : Utils} (props : Props) :
  render props = None \/
  (~ roundedDispatch props /\
   render props =
   Some (getSectorPath (cx props) (cy props) (innerRadius props)
           (outerRadius props) (startAngle props) (endAngle props))) \/
  (roundedDispatch props /\
   render props =
   Some (getSectorWithCorner (cx props) (cy props) (innerRadius props)
           (outerRadius props) (resolvedCornerRadius props)
           (forceCornerRadius props) (startAngle props) (endAngle props))).
Proof.
  destruct (Rlt_dec (outerRadius props) (innerRadius props)) as [Hr | Hr];
    [left; apply render_null; tauto |].
  destruct (Req_dec_T (startAngle props) (endAngle props)) as [Ha | Ha];
    [left; apply render_null; tauto |].
  right. destruct (roundedDispatch_dec props) as [Hd | Hd].
  - right. split; [assumption | apply render_rounded; assumption].
  - left. split; [assumption | apply render_sharp; assumption].
Qed.

Lemma spec_getPercentValue_1000 :
  Spec.getPercentValue (Absolute 1000) (100 - 0) 0 true = 100.
Proof.
  unfold Spec.getPercentValue.
  rewrite Rmin_right by lra. rewrite Rmax_right by lra. lra.
Qed.

Lemma spec_getPercentValue_50 :
  Spec.getPercentValue (Absolute 50) (100 - 0) 0 true = 50.
Proof.
  unfold Spec.getPercentValue.
  rewrite Rmin_left by lra. rewrite Rmax_right by lra. lra.
Qed.

(** C7.  The corner radius that [render] passes to
    [getSectorWithCorner] is at most [(outerRadius - innerRadius) / 2].
    With the [getPercentValue] of the specification, inner radius 0 and
    outer radius 100, [cornerRadius = 1000] and [cornerRadius = 50] give
    the same result. *)
Theorem render_cornerRadius_clamped :
  (forall (U : Utils) (props : Props),
     resolvedCornerRadius props <=
       (outerRadius props - innerRadius props) / 2 /\
     (render props = None \/
      render props =
        Some (getSectorPath (cx props) (cy props) (innerRadius props)
                (outerRadius props) (startAngle props) (endAngle props)) \/
      render props =
        Some (getSectorWithCorner (cx props) (cy props)
                (innerRadius props) (outerRadius props)
                (resolvedCornerRadius props) (forceCornerRadius props)
                (startAngle props) (endAngle props)))) /\
  (forall (cx cy startAngle endAngle : R) (forceCornerRadius : bool),
     @render SpecUtils
       (mkProps cx cy 0 100 startAngle endAngle (Absolute 1000)
                forceCornerRadius) =
     @render SpecUtils
       (mkProps cx cy 0 100 startAngle endAngle (Absolute 50)
                forceCornerRadius)).
Proof.
  split.
  - intros U props. split.
    + unfold resolvedCornerRadius. apply Rmin_r.
    + destruct (render_cases props) as [H | [[_ H] | [_ H]]]; tauto.
  - intros x0 y0 a0 a1 force.
    unfold render.
    cbn [cx cy innerRadius outerRadius startAngle endAngle cornerRadius
         forceCornerRadius].
    change (@getPercentValue SpecUtils) with Spec.getPercentValue.
    rewrite spec_getPercentValue_1000, spec_getPercentValue_50.
    rewrite (Rgtb_true 100 0) by lra. rewrite (Rgtb_true 50 0) by lra.
    rewrite (Rmin_right 100) by lra. rewrite (Rmin_left 50) by lra.
    replace ((100 - 0) / 2) with 50 by lra.
    reflexivity.
Qed.

(** ** Closed contours *)


(** ** The angular span *)

Lemma spec_getDeltaAngle_magnitude (startAngle endAngle : R) :
  Rabs (@getDeltaAngle SpecUtils startAngle endAngle) =
  Rmin (Rabs (endAngle - startAngle)) 359.999.
Proof.
  destruct (Rtotal_order startAngle endAngle) as [Hlt | [Heq | Hgt]].
  - rewrite spec_getDeltaAngle_increasing by assumption.
    rewrite (Rabs_pos_eq (endAngle - startAngle)) by lra.
    apply Rabs_pos_eq. apply Rmin_glb; lra.
  - subst endAngle. unfold getDeltaAngle. simpl mathSign.
    replace (startAngle - startAngle) with 0 by lra.
    rewrite spec_mathSign_zero, Rabs_R0, Rmult_0_l, Rabs_R0.
    rewrite Rmin_left by lra. reflexivity.
  - rewrite spec_getDeltaAngle_decreasing by lra.
    rewrite (Rabs_left (endAngle - startAngle)) by lra.
    replace (- (endAngle - startAngle)) with (startAngle - endAngle) by lra.
    rewrite Rabs_Ropp. apply Rabs_pos_eq. apply Rmin_glb; lra.
Qed.

Lemma spec_getPercentValue_10 :
  Spec.getPercentValue (Absolute 10) (100 - 0) 0 true = 10.
Proof.
  unfold Spec.getPercentValue.
  rewrite Rmin_left by lra. rewrite Rmax_right by lra. lra.
Qed.

(** ** The domain of the inverse sine *)

Lemma div_unit_interval (c d : R) :
  0 <= c -> c <= d -> 0 < d -> 0 <= c / d <= 1.
Proof.
  intros Hc Hcd Hd.
  assert (Hinv : 0 < / d) by (apply Rinv_0_lt_compat; assumption).
  assert (Hone : d * / d = 1) by (apply Rinv_r; lra).
  unfold Rdiv. split; nra.
Qed.

Lemma spec_getPercentValue_bound (percent : CornerRadius) (totalValue : R) :
  0 <= totalValue ->
  Spec.getPercentValue percent totalValue 0 true <= totalValue.
Proof.
  intros H. unfold Spec.getPercentValue.
  apply Rmax_lub; [assumption | apply Rmin_r].
Qed.

(** * Further properties of the source functions *)

(** ** The utilities of the specification have the assumed properties *)

Lemma spec_signUtility : @signUtility SpecUtils.
Proof. intros value. reflexivity. Qed.

Lemma spec_degreeUtility : @degreeUtility SpecUtils.
Proof. reflexivity. Qed.

Lemma spec_polarUtility : @polarUtility SpecUtils.
Proof.
  exists 1. split; [left; reflexivity |].
  intros cx cy radius angle. simpl. unfold Spec.polarToCartesian.
  rewrite Rmult_1_l. reflexivity.
Qed.

Lemma spec_boundedPercent : @boundedPercent SpecUtils.
Proof. exact spec_getPercentValue_bound. Qed.

(** ** The delta angle under a sign function *)

Section SignedDelta.
Context `{U : Utils}.
Hypothesis Hsign : signUtility.

Lemma sign_pos (v : R) : 0 < v -> mathSign v = 1.
Proof. intros H. rewrite Hsign. decide_cmp. reflexivity. Qed.

Lemma sign_neg (v : R) : v < 0 -> mathSign v = -1.
Proof. intros H. rewrite Hsign. decide_cmp. reflexivity. Qed.

Lemma sign_zero : mathSign 0 = 0.
Proof. rewrite Hsign. decide_cmp. reflexivity. Qed.

Lemma sign_odd (v : R) : mathSign (- v) = - mathSign v.
Proof.
  destruct (Rtotal_order v 0) as [Hn | [Hz | Hp]].
  - rewrite (sign_neg v Hn), sign_pos by lra. lra.
  - subst v. rewrite Ropp_0, sign_zero. lra.
  - rewrite (sign_pos v Hp), sign_neg by lra. lra.
Qed.

(** The three cases of [getDeltaAngle]. *)
Lemma getDeltaAngle_cases (startAngle endAngle : R) :
  (startAngle < endAngle /\
   getDeltaAngle startAngle endAngle =
   Rmin (endAngle - startAngle) 359.999) \/
  (startAngle = endAngle /\ getDeltaAngle startAngle endAngle = 0) \/
  (endAngle < startAngle /\
   getDeltaAngle startAngle endAngle =
   - Rmin (startAngle - endAngle) 359.999).
Proof.
  unfold getDeltaAngle.
  destruct (Rtotal_order startAngle endAngle) as [Hlt | [Heq | Hgt]].
  - left. split; [assumption |].
    rewrite sign_pos by lra. rewrite Rabs_pos_eq by lra. lra.
  - right. left. split; [assumption |].
    subst endAngle. replace (startAngle - startAngle) with 0 by lra.
    rewrite sign_zero. lra.
  - right. right. split; [assumption |].
    rewrite sign_neg by lra. rewrite Rabs_left by lra.
    replace (- (endAngle - startAngle)) with (startAngle - endAngle) by lra.
    lra.
Qed.

Lemma large_flag_by_angles (startAngle endAngle : R) :
  (Rabs (getDeltaAngle startAngle endAngle) >? 180) =
  (Rabs (endAngle - startAngle) >? 180).
Proof.
  destruct (getDeltaAngle_cases startAngle endAngle)
    as [[H ->] | [[H ->] | [H ->]]];
    destruct (Rgtb_spec (Rabs (endAngle - startAngle)) 180) as [Hb | Hb];
    try rewrite Rabs_Ropp.
  - rewrite Rabs_pos_eq in Hb by lra.
    apply Rgtb_true. rewrite Rabs_pos_eq by (apply Rmin_glb; lra).
    apply Rmin_glb_lt; lra.
  - rewrite Rabs_pos_eq in Hb by lra.
    apply Rgtb_false. rewrite Rabs_pos_eq by (apply Rmin_glb; lra).
    pose proof (Rmin_l (endAngle - startAngle) 359.999). lra.
  - subst endAngle. replace (startAngle - startAngle) with 0 in Hb by lra.
    rewrite Rabs_R0 in Hb. lra.
  - apply Rgtb_false. rewrite Rabs_R0. lra.
  - rewrite Rabs_left in Hb by lra.
    apply Rgtb_true. rewrite Rabs_pos_eq by (apply Rmin_glb; lra).
    apply Rmin_glb_lt; lra.
  - rewrite Rabs_left in Hb by lra.
    apply Rgtb_false. rewrite Rabs_pos_eq by (apply Rmin_glb; lra).
    pose proof (Rmin_l (startAngle - endAngle) 359.999). lra.
Qed.

Lemma sweep_flag_by_angles (startAngle endAngle : R) :
  (startAngle >? tempEndAngle startAngle endAngle) =
  (startAngle >? endAngle).
Proof.
  unfold tempEndAngle.
  destruct (getDeltaAngle_cases startAngle endAngle)
    as [[H ->] | [[H ->] | [H ->]]].
  - assert (0 < Rmin (endAngle - startAngle) 359.999)
      by (apply Rmin_glb_lt; lra).
    rewrite !Rgtb_false by lra. reflexivity.
  - rewrite !Rgtb_false by lra. reflexivity.
  - assert (0 < Rmin (startAngle - endAngle) 359.999)
      by (apply Rmin_glb_lt; lra).
    rewrite !Rgtb_true by lra. reflexivity.
Qed.

Lemma tempEndAngle_short (startAngle endAngle : R) :
  Rabs (endAngle - startAngle) <= 359.999 ->
  tempEndAngle startAngle endAngle = endAngle.
Proof.
  intros Hspan. unfold tempEndAngle.
  destruct (getDeltaAngle_cases startAngle endAngle)
    as [[H ->] | [[H ->] | [H ->]]].
  - rewrite Rabs_pos_eq in Hspan by lra. rewrite Rmin_left by lra. lra.
  - lra.
  - rewrite Rabs_left in Hspan by lra. rewrite Rmin_left by lra. lra.
Qed.

End SignedDelta.

(** [getSectorPath] reads its angles through [getDeltaAngle] only. *)
Lemma getSectorPath_same_delta `{U : Utils}
    (cx cy innerRadius outerRadius startAngle endAngle endAngle' : R) :
  getDeltaAngle startAngle endAngle = getDeltaAngle startAngle endAngle' ->
  getSectorPath cx cy innerRadius outerRadius startAngle endAngle =
  getSectorPath cx cy innerRadius outerRadius startAngle endAngle'.
Proof. intros H. unfold getSectorPath. rewrite H. reflexivity. Qed.

(** X1.  With a sign function for [mathSign], the flags of
    [getSectorPath] are read off its arguments: the large-arc flag of
    both arcs is set iff [|endAngle - startAngle| > 180], the sweep flag
    of the outer arc iff [startAngle > endAngle], that of the inner arc
    iff not; and when [|endAngle - startAngle| <= 359.999] the arcs end
    at [endAngle] itself. *)
Theorem getSectorPath_flags_by_angles `{U : Utils}
    (cx cy innerRadius outerRadius startAngle endAngle : R)
    (Hsign : signUtility) :
  let tempEnd := tempEndAngle startAngle endAngle in
  let large := Rabs (endAngle - startAngle) >? 180 in
  let sweep := startAngle >? endAngle in
  (Rabs (endAngle - startAngle) <= 359.999 -> tempEnd = endAngle) /\
  (innerRadius > 0 ->
   getSectorPath cx cy innerRadius outerRadius startAngle endAngle =
   [ MoveTo (polarToCartesian cx cy outerRadius startAngle);
     ArcTo outerRadius outerRadius 0 large sweep
       (polarToCartesian cx cy outerRadius tempEnd);
     LineTo (polarToCartesian cx cy innerRadius tempEnd);
     ArcTo innerRadius innerRadius 0 large (negb sweep)
       (polarToCartesian cx cy innerRadius startAngle);
     ClosePath ]) /\
  (~ innerRadius > 0 ->
   getSectorPath cx cy innerRadius outerRadius startAngle endAngle =
   [ MoveTo (polarToCartesian cx cy outerRadius startAngle);
     ArcTo outerRadius outerRadius 0 large sweep
       (polarToCartesian cx cy outerRadius tempEnd);
     LineTo (mkPoint cx cy);
     ClosePath ]).
Proof.
  intros tempEnd large sweep.
  split; [apply tempEndAngle_short; assumption |].
  split; intros Hin; unfold getSectorPath;
    fold (tempEndAngle startAngle endAngle); fold tempEnd;
    rewrite (large_flag_by_angles Hsign).
  - rewrite (Rgtb_true _ _ Hin). rewrite Rleb_negb_Rgtb.
    subst tempEnd. rewrite (sweep_flag_by_angles Hsign). reflexivity.
  - rewrite (Rgtb_false _ _ Hin).
    subst tempEnd. rewrite (sweep_flag_by_angles Hsign). reflexivity.
Qed.

Lemma getSectorPath_flags_by_angles_witness :
  @signUtility SpecUtils /\
  @tempEndAngle SpecUtils 30 (-60) = -60.
Proof.
  split; [exact spec_signUtility |].
  apply (getSectorPath_flags_by_angles (U := SpecUtils) 0 0 0 100 30 (-60)
           spec_signUtility).
  rewrite Rabs_left by lra. lra.
Defined.

(** X2.  With a sign function for [mathSign], [getSectorPath] draws
    every span of 359.999 degrees or more as the span of 359.999 degrees
    in the same direction. *)
Theorem getSectorPath_saturates `{U : Utils}
    (cx cy innerRadius outerRadius startAngle endAngle : R)
    (Hsign : signUtility) :
  (endAngle - startAngle >= 359.999 ->
   getSectorPath cx cy innerRadius outerRadius startAngle endAngle =
   getSectorPath cx cy innerRadius outerRadius startAngle
     (startAngle + 359.999)) /\
  (startAngle - endAngle >= 359.999 ->
   getSectorPath cx cy innerRadius outerRadius startAngle endAngle =
   getSectorPath cx cy innerRadius outerRadius startAngle
     (startAngle - 359.999)).
Proof.
  split; intros Hspan; apply getSectorPath_same_delta.
  - destruct (getDeltaAngle_cases Hsign startAngle endAngle)
      as [[H ->] | [[H _] | [H _]]]; try lra.
    destruct (getDeltaAngle_cases Hsign startAngle (startAngle + 359.999))
      as [[H' ->] | [[H' _] | [H' _]]]; try lra.
    rewrite !Rmin_right by lra. reflexivity.
  - destruct (getDeltaAngle_cases Hsign startAngle endAngle)
      as [[H _] | [[H _] | [H ->]]]; try lra.
    destruct (getDeltaAngle_cases Hsign startAngle (startAngle - 359.999))
      as [[H' _] | [[H' _] | [H' ->]]]; try lra.
    rewrite !Rmin_right by lra. reflexivity.
Qed.

Lemma getSectorPath_saturates_witness :
  @signUtility SpecUtils /\
  @getSectorPath SpecUtils 0 0 50 100 10 730 =
  @getSectorPath SpecUtils 0 0 50 100 10 (10 + 359.999).
Proof.
  split; [exact spec_signUtility |].
  apply (getSectorPath_saturates (U := SpecUtils) 0 0 50 100 10 730
           spec_signUtility).
  lra.
Defined.

(** X3.  When [|startAngle - endAngle| >= 360], the result of [render]
    does not depend on [cornerRadius] and [forceCornerRadius]: a full
    turn is never rounded. *)
Theorem render_full_turn_unrounded `{U : Utils} (props : Props)
    (corner : CornerRadius) (force : bool)
    (Hfull : Rabs (startAngle props - endAngle props) >= 360) :
  render (withRounding corner force props) = render props.
Proof.
  destruct (Rlt_dec (outerRadius props) (innerRadius props)) as [Hr | Hr].
  - rewrite !render_null; [reflexivity | left; exact Hr | left; exact Hr].
  - assert (Ha : startAngle props <> endAngle props).
    { intros Heq. rewrite Heq in Hfull.
      replace (endAngle props - endAngle props) with 0 in Hfull by lra.
      rewrite Rabs_R0 in Hfull. lra. }
    rewrite (render_sharp props Hr Ha).
    + rewrite (render_sharp (withRounding corner force props) Hr Ha);
        [reflexivity |].
      unfold roundedDispatch. simpl. lra.
    + unfold roundedDispatch. lra.
Qed.

Lemma render_full_turn_unrounded_witness :
  Rabs (0 - 400) >= 360 /\
  @render SpecUtils (mkProps 0 0 50 100 0 400 (Percent 50) true) =
  @render SpecUtils (mkProps 0 0 50 100 0 400 (Absolute 0) false).
Proof.
  assert (H : Rabs (0 - 400) >= 360) by (rewrite Rabs_left; lra).
  split; [exact H |].
  exact (render_full_turn_unrounded (U := SpecUtils)
           (mkProps 0 0 50 100 0 400 (Absolute 0) false)
           (Percent 50) true H).
Defined.


(** X4.  What the defaults make of props that are left out: without
    [startAngle] and [endAngle] nothing is rendered, whatever the other
    props; without [outerRadius] nothing is rendered as soon as
    [innerRadius] is positive; and with no more than two distinct angles
    given a path is rendered all the same, both radii being 0. *)
Theorem render_with_defaults `{U : Utils} :
  (forall (cx cy innerRadius outerRadius : option R)
          (cornerRadius : option CornerRadius)
          (forceCornerRadius : option bool),
     render (withDefaults
               (mkGivenProps cx cy innerRadius outerRadius None None
                             cornerRadius forceCornerRadius)) = None) /\
  (forall (cx cy startAngle endAngle : option R) (innerRadius : R)
          (cornerRadius : option CornerRadius)
          (forceCornerRadius : option bool),
     innerRadius > 0 ->
     render (withDefaults
               (mkGivenProps cx cy (Some innerRadius) None
                             startAngle endAngle
                             cornerRadius forceCornerRadius)) = None) /\
  (forall startAngle endAngle : R,
     startAngle <> endAngle ->
     exists path,
       render (withDefaults
                 (mkGivenProps None None None None
                               (Some startAngle) (Some endAngle)
                               None None)) = Some path).
Proof.
  split; [| split].
  - intros. apply render_null. right. reflexivity.
  - intros. apply render_null. left. simpl. lra.
  - intros startAngle endAngle Hne. apply render_some; simpl; lra.
Qed.

(** ** Polar points *)

Lemma sin2_cos2_prod (a : R) : sin a * sin a + cos a * cos a = 1.
Proof. pose proof (sin2_cos2 a) as H. unfold Rsqr in H. exact H. Qed.

Lemma cos_turn (turn a : R) :
  turn = 1 \/ turn = -1 -> cos (turn * a) = cos a.
Proof.
  intros [-> | ->].
  - rewrite Rmult_1_l. reflexivity.
  - replace (-1 * a) with (- a) by ring. apply cos_neg.
Qed.

(** Strictly inside a full turn the cosine is below 1. *)
Lemma cos_lt_1 (a : R) : 0 < a < 2 * PI -> cos a < 1.
Proof.
  intros [Hlo Hhi].
  replace a with (2 * (a / 2)) by field.
  rewrite cos_2a_sin.
  assert (0 < sin (a / 2)) by (apply sin_gt_0; lra).
  nra.
Qed.

Section PolarPoints.
Context `{U : Utils}.
Hypothesis Hpolar : polarUtility.

(** The law of cosines for two points around the same centre. *)
Lemma polar_dist2 (cx cy r1 a1 r2 a2 : R) :
  dist2 (polarToCartesian cx cy r1 a1) (polarToCartesian cx cy r2 a2) =
  r1 * r1 + r2 * r2 - 2 * r1 * r2 * cos ((a1 - a2) * RADIAN).
Proof.
  destruct Hpolar as (turn & Hturn & Hp).
  rewrite !Hp. unfold dist2. simpl.
  rewrite <- (cos_turn turn ((a1 - a2) * RADIAN) Hturn).
  replace (turn * ((a1 - a2) * RADIAN))
    with (turn * (a1 * RADIAN) - turn * (a2 * RADIAN)) by ring.
  rewrite cos_minus.
  set (A1 := turn * (a1 * RADIAN)). set (A2 := turn * (a2 * RADIAN)).
  replace (r1 * r1) with (r1 * r1 * (sin A1 * sin A1 + cos A1 * cos A1))
    by (rewrite sin2_cos2_prod; ring).
  replace (r2 * r2) with (r2 * r2 * (sin A2 * sin A2 + cos A2 * cos A2))
    by (rewrite sin2_cos2_prod; ring).
  ring.
Qed.

Lemma polar_dist2_centre (cx cy radius angle : R) :
  dist2 (polarToCartesian cx cy radius angle) (mkPoint cx cy) =
  radius * radius.
Proof.
  destruct Hpolar as (turn & Hturn & Hp).
  rewrite Hp. unfold dist2. simpl.
  set (A := turn * (angle * RADIAN)).
  replace (radius * radius)
    with (radius * radius * (sin A * sin A + cos A * cos A))
    by (rewrite sin2_cos2_prod; ring).
  ring.
Qed.

Lemma polar_translate (dx dy cx cy radius angle : R) :
  polarToCartesian (cx + dx) (cy + dy) radius angle =
  translatePoint dx dy (polarToCartesian cx cy radius angle).
Proof.
  destruct Hpolar as (turn & Hturn & Hp).
  rewrite !Hp. unfold translatePoint. simpl. f_equal; ring.
Qed.

End PolarPoints.

Lemma dist2_sym (p q : Point) : dist2 p q = dist2 q p.
Proof. unfold dist2. ring. Qed.

Lemma dist2_same (p : Point) : dist2 p p = 0.
Proof. unfold dist2. ring. Qed.

(** X5.  The solver returns a circle that is tangent as intended.  For a
    polar [polarToCartesian], a non-zero [RADIAN], a direction [sign] of
    1 or -1 and an inverse sine taken inside its domain: the circle
    tangency point lies on the main circle; the centre of the rounding
    circle lies at [centerRadius] from the sector centre and at
    [cornerRadius] from both tangency points; and the radius to the line
    tangency point is at a right angle with the line from there to that
    centre. *)
Theorem getTangentCircle_tangent `{U : Utils}
    (cx cy radius angle sign : R) (isExternal : bool) (cornerRadius : R)
    (Hpolar : polarUtility)
    (Hradian : RADIAN <> 0)
    (Hsign : sign = 1 \/ sign = -1)
    (Hcentre : centerRadiusOf radius isExternal cornerRadius <> 0)
    (Hdomain :
       -1 <= cornerRadius / centerRadiusOf radius isExternal cornerRadius
          <= 1) :
  let t := getTangentCircle cx cy radius angle sign isExternal
             cornerRadius in
  let centerRadius := centerRadiusOf radius isExternal cornerRadius in
  let origin := mkPoint cx cy in
  dist2 (circleTangency t) origin = radius * radius /\
  dist2 (center t) origin = centerRadius * centerRadius /\
  dist2 (center t) (circleTangency t) = cornerRadius * cornerRadius /\
  dist2 (center t) (lineTangency t) = cornerRadius * cornerRadius /\
  dist2 origin (lineTangency t) + dist2 (lineTangency t) (center t) =
    dist2 origin (center t).
Proof.
  intros t centerRadius origin. subst centerRadius.
  set (cR := centerRadiusOf radius isExternal cornerRadius) in *.
  set (phi := asin (cornerRadius / cR)).
  assert (Hsin : sin phi * cR = cornerRadius).
  { unfold phi. rewrite (sin_asin _ Hdomain). field. exact Hcentre. }
  assert (Hcos : cos (sign * phi) = cos phi) by (apply cos_turn; exact Hsign).
  assert (Hphi : asin (cornerRadius / cR) / RADIAN * RADIAN = phi)
    by (unfold phi; field; exact Hradian).
  pose proof (sin2_cos2_prod phi) as Hone.
  assert (Ht : t = mkTangentCircle
                 (polarToCartesian cx cy cR (angle + sign * (phi / RADIAN)))
                 (polarToCartesian cx cy radius
                    (angle + sign * (phi / RADIAN)))
                 (polarToCartesian cx cy (cR * cos phi) angle)
                 (phi / RADIAN)).
  { unfold t, getTangentCircle. fold cR. cbv zeta. rewrite Hphi.
    reflexivity. }
  rewrite Ht. cbn [center circleTangency lineTangency theta].
  assert (Hct : dist2
                  (polarToCartesian cx cy cR (angle + sign * (phi / RADIAN)))
                  (polarToCartesian cx cy radius
                     (angle + sign * (phi / RADIAN))) =
                cornerRadius * cornerRadius).
  { rewrite (polar_dist2 Hpolar).
    match goal with |- context [cos ?a] => replace a with 0 by ring end.
    rewrite cos_0.
    unfold cR, centerRadiusOf. destruct isExternal; ring. }
  assert (Hlt : dist2
                  (polarToCartesian cx cy cR (angle + sign * (phi / RADIAN)))
                  (polarToCartesian cx cy (cR * cos phi) angle) =
                cornerRadius * cornerRadius).
  { rewrite (polar_dist2 Hpolar).
    replace ((angle + sign * (phi / RADIAN) - angle) * RADIAN)
      with (sign * phi) by (field; exact Hradian).
    rewrite Hcos. rewrite <- Hsin. nra. }
  split; [apply (polar_dist2_centre Hpolar) |].
  split; [apply (polar_dist2_centre Hpolar) |].
  split; [exact Hct |]. split; [exact Hlt |].
  rewrite (dist2_sym (polarToCartesian cx cy (cR * cos phi) angle)), Hlt.
  rewrite !(dist2_sym origin). unfold origin.
  rewrite !(polar_dist2_centre Hpolar). rewrite <- Hsin. nra.
Qed.

Lemma getTangentCircle_tangent_witness :
  @polarUtility SpecUtils /\
  @RADIAN SpecUtils <> 0 /\
  (1 = 1 \/ 1 = -1) /\
  @centerRadiusOf 100 false 25 <> 0 /\
  -1 <= 25 / centerRadiusOf 100 false 25 <= 1 /\
  dist2 (center (@getTangentCircle SpecUtils 0 0 100 30 1 false 25))
        (lineTangency (@getTangentCircle SpecUtils 0 0 100 30 1 false 25)) =
  25 * 25.
Proof.
  assert (Hrad : @RADIAN SpecUtils <> 0).
  { simpl. unfold Spec.RADIAN. pose proof PI_RGT_0. lra. }
  assert (Hsign : 1 = 1 \/ 1 = -1) by (left; reflexivity).
  assert (Hc : @centerRadiusOf 100 false 25 <> 0)
    by (unfold centerRadiusOf; lra).
  assert (Hd : -1 <= 25 / centerRadiusOf 100 false 25 <= 1).
  { assert (0 <= 25 / centerRadiusOf 100 false 25 <= 1)
      by (apply div_unit_interval; unfold centerRadiusOf; lra).
    lra. }
  split; [exact spec_polarUtility |]. split; [exact Hrad |].
  split; [exact Hsign |]. split; [exact Hc |]. split; [exact Hd |].
  apply (getTangentCircle_tangent (U := SpecUtils) 0 0 100 30 1 false 25
           spec_polarUtility Hrad Hsign Hc Hd).
Defined.

(** ** The end points of the sharp arcs *)

Lemma cos_degrees_lt_1 (d : R) :
  d <> 0 -> Rabs d < 360 -> cos (d * (PI / 180)) < 1.
Proof.
  intros Hd Hb. pose proof PI_RGT_0 as Hpi.
  destruct (Rtotal_order d 0) as [Hn | [Hz | Hp]]; [| contradiction |].
  - rewrite Rabs_left in Hb by lra.
    rewrite <- cos_neg.
    replace (- (d * (PI / 180))) with ((- d) * (PI / 180)) by ring.
    apply cos_lt_1. split; nra.
  - rewrite Rabs_pos_eq in Hb by lra.
    apply cos_lt_1. split; nra.
Qed.

Lemma getDeltaAngle_bounds `{U : Utils} (startAngle endAngle : R) :
  signUtility -> startAngle <> endAngle ->
  getDeltaAngle startAngle endAngle <> 0 /\
  Rabs (getDeltaAngle startAngle endAngle) <= 359.999.
Proof.
  intros Hsign Hne.
  destruct (getDeltaAngle_cases Hsign startAngle endAngle)
    as [[H ->] | [[H _] | [H ->]]]; [| contradiction |].
  - assert (0 < Rmin (endAngle - startAngle) 359.999)
      by (apply Rmin_glb_lt; lra).
    pose proof (Rmin_r (endAngle - startAngle) 359.999).
    rewrite Rabs_pos_eq by lra. split; lra.
  - assert (0 < Rmin (startAngle - endAngle) 359.999)
      by (apply Rmin_glb_lt; lra).
    pose proof (Rmin_r (startAngle - endAngle) 359.999).
    rewrite Rabs_Ropp, Rabs_pos_eq by lra. split; lra.
Qed.

(** X6.  The cap of 359.999 degrees does what it is there for.  With a
    sign function, degrees and a polar [polarToCartesian], the outer arc
    of [getSectorPath] never ends where it starts when the radius is not
    0 and the angles differ, whereas the point one full turn further,
    which an uncapped span of 360 degrees would use, is the start point
    itself. *)
Theorem getSectorPath_arc_ends_differ `{U : Utils}
    (cx cy innerRadius outerRadius startAngle endAngle : R)
    (Hsign : signUtility) (Hdegree : degreeUtility) (Hpolar : polarUtility)
    (Hradius : outerRadius <> 0)
    (Hangles : startAngle <> endAngle) :
  (exists (p q : Point) (large sweep : bool) (rest : Path),
     getSectorPath cx cy innerRadius outerRadius startAngle endAngle =
       MoveTo p :: ArcTo outerRadius outerRadius 0 large sweep q :: rest /\
     p = polarToCartesian cx cy outerRadius startAngle /\
     p <> q) /\
  polarToCartesian cx cy outerRadius (startAngle + 360) =
  polarToCartesian cx cy outerRadius startAngle.
Proof.
  split.
  - set (p := polarToCartesian cx cy outerRadius startAngle).
    set (q := polarToCartesian cx cy outerRadius
                (tempEndAngle startAngle endAngle)).
    assert (Hpq : p <> q).
    { intros Heq.
      assert (Hzero : dist2 p q = 0) by (rewrite Heq; apply dist2_same).
      unfold p, q in Hzero. rewrite (polar_dist2 Hpolar) in Hzero.
      destruct (getDeltaAngle_bounds startAngle endAngle Hsign Hangles)
        as [Hnz Hle].
      assert (Hcos : cos ((startAngle - tempEndAngle startAngle endAngle)
                          * RADIAN) < 1).
      { rewrite Hdegree. apply cos_degrees_lt_1; unfold tempEndAngle.
        - lra.
        - replace (startAngle -
                   (startAngle + getDeltaAngle startAngle endAngle))
            with (- getDeltaAngle startAngle endAngle) by ring.
          rewrite Rabs_Ropp. lra. }
      assert (0 < outerRadius * outerRadius) by nra.
      nra. }
    unfold getSectorPath. fold (tempEndAngle startAngle endAngle).
    fold p. fold q.
    destruct (innerRadius >? 0); simpl;
      do 5 eexists; (split; [reflexivity | split; [reflexivity | exact Hpq]]).
  - destruct Hpolar as (turn & Hturn & Hp). rewrite !Hp, Hdegree.
    replace (turn * ((startAngle + 360) * (PI / 180)))
      with (turn * (startAngle * (PI / 180)) + turn * (2 * PI)) by field.
    destruct Hturn as [-> | ->].
    + rewrite !Rmult_1_l, cos_plus, sin_plus, cos_2PI, sin_2PI.
      f_equal; ring.
    + replace (-1 * (2 * PI)) with (- (2 * PI)) by ring.
      rewrite cos_plus, sin_plus, cos_neg, sin_neg, cos_2PI, sin_2PI.
      f_equal; ring.
Qed.

Lemma getSectorPath_arc_ends_differ_witness :
  @signUtility SpecUtils /\ @degreeUtility SpecUtils /\
  @polarUtility SpecUtils /\ 100 <> 0 /\ 0 <> 720 /\
  @polarToCartesian SpecUtils 0 0 100 (0 + 360) =
  @polarToCartesian SpecUtils 0 0 100 0.
Proof.
  assert (Hr : 100 <> 0) by lra.
  assert (Ha : 0 <> 720) by lra.
  split; [exact spec_signUtility |]. split; [exact spec_degreeUtility |].
  split; [exact spec_polarUtility |]. split; [exact Hr |].
  split; [exact Ha |].
  apply (getSectorPath_arc_ends_differ (U := SpecUtils) 0 0 0 100 0 720
           spec_signUtility spec_degreeUtility spec_polarUtility Hr Ha).
Defined.

(** ** Moving the centre *)

Section Translation.
Context `{U : Utils}.
Hypothesis Hpolar : polarUtility.
Variables dx dy : R.

Lemma getTangentCircle_translate (cx cy radius angle sign : R)
    (isExternal : bool) (cornerRadius : R) :
  getTangentCircle (cx + dx) (cy + dy) radius angle sign isExternal
    cornerRadius =
  let t := getTangentCircle cx cy radius angle sign isExternal
             cornerRadius in
  mkTangentCircle (translatePoint dx dy (center t))
                  (translatePoint dx dy (circleTangency t))
                  (translatePoint dx dy (lineTangency t))
                  (theta t).
Proof.
  unfold getTangentCircle. cbv zeta.
  rewrite !(polar_translate Hpolar). reflexivity.
Qed.

Lemma getSectorPath_translate
    (cx cy innerRadius outerRadius startAngle endAngle : R) :
  getSectorPath (cx + dx) (cy + dy) innerRadius outerRadius
    startAngle endAngle =
  translatePath dx dy
    (getSectorPath cx cy innerRadius outerRadius startAngle endAngle).
Proof.
  unfold getSectorPath. cbv zeta.
  rewrite !(polar_translate Hpolar).
  destruct (innerRadius >? 0); reflexivity.
Qed.

Lemma getSectorWithCorner_translate
    (cx cy innerRadius outerRadius cornerRadius : R)
    (forceCornerRadius : bool) (startAngle endAngle : R) :
  getSectorWithCorner (cx + dx) (cy + dy) innerRadius outerRadius
    cornerRadius forceCornerRadius startAngle endAngle =
  translatePath dx dy
    (getSectorWithCorner cx cy innerRadius outerRadius cornerRadius
       forceCornerRadius startAngle endAngle).
Proof.
  unfold getSectorWithCorner.
  rewrite !getTangentCircle_translate.
  cbv zeta. cbn [theta lineTangency circleTangency].
  match goal with |- context [if ?b then _ else _] => destruct b end.
  - destruct forceCornerRadius;
      [reflexivity | apply getSectorPath_translate].
  - destruct (innerRadius >? 0); [| reflexivity].
    match goal with |- context [if ?b then _ else _] => destruct b end;
      reflexivity.
Qed.

End Translation.

(** X7.  With a polar [polarToCartesian], moving the centre by
    [(dx, dy)] moves the rendered path by [(dx, dy)]: every absolute
    point is translated, and radii, flags and relative offsets stay. *)
Theorem render_translate `{U : Utils} (dx dy : R) (props : Props)
    (Hpolar : polarUtility) :
  render (moveCentre dx dy props) =
  option_map (translatePath dx dy) (render props).
Proof.
  unfold render.
  cbn [cx cy innerRadius outerRadius startAngle endAngle cornerRadius
       forceCornerRadius moveCentre].
  destruct ((outerRadius props <? innerRadius props)
            || (startAngle props =? endAngle props)); [reflexivity |].
  match goal with |- context [if ?b then _ else _] => destruct b end;
    cbn [option_map]; f_equal.
  - apply getSectorWithCorner_translate. exact Hpolar.
  - apply getSectorPath_translate. exact Hpolar.
Qed.

Lemma render_translate_witness :
  @polarUtility SpecUtils /\
  @render SpecUtils (moveCentre 3 4 (mkProps 0 0 50 100 0 90 (Absolute 5)
                                             false)) =
  option_map (translatePath 3 4)
    (@render SpecUtils (mkProps 0 0 50 100 0 90 (Absolute 5) false)).
Proof.
  split; [exact spec_polarUtility |].
  exact (render_translate (U := SpecUtils) 3 4
           (mkProps 0 0 50 100 0 90 (Absolute 5) false) spec_polarUtility).
Defined.

(** ** The angles that the corners take *)



(** What [render] passes as corner radius is positive and at most half
    the thickness, when [getPercentValue] stays within its bound. *)
Lemma resolved_corner_bounds `{U : Utils} (props : Props) :
  boundedPercent ->
  0 <= innerRadius props <= outerRadius props ->
  roundedDispatch props ->
  0 < resolvedCornerRadius props <=
      (outerRadius props - innerRadius props) / 2.
Proof.
  intros Hb Hr [Hcr _].
  assert (Hd : 0 <= outerRadius props - innerRadius props) by lra.
  pose proof (Hb (cornerRadius props) _ Hd) as Hle.
  unfold resolvedCornerRadius. split.
  - apply Rmin_glb_lt; lra.
  - apply Rmin_r.
Qed.



(** ** The arcs of the rendered path *)

Lemma getSectorPath_absolute `{U : Utils}
    (cx cy innerRadius outerRadius startAngle endAngle : R) :
  existsb isRelativeArc
    (getSectorPath cx cy innerRadius outerRadius startAngle endAngle) =
  false.
Proof. unfold getSectorPath. destruct (innerRadius >? 0); reflexivity. Qed.

Lemma getSectorWithCorner_relative `{U : Utils}
    (cx cy innerRadius outerRadius cornerRadius : R)
    (forceCornerRadius : bool) (startAngle endAngle : R) :
  existsb isRelativeArc
    (getSectorWithCorner cx cy innerRadius outerRadius cornerRadius
       forceCornerRadius startAngle endAngle) = true <->
  forceCornerRadius = true /\
  outerArcAngle cx cy outerRadius cornerRadius startAngle endAngle < 0.
Proof.
  destruct (Rlt_dec
              (outerArcAngle cx cy outerRadius cornerRadius
                 startAngle endAngle) 0) as [Ho | Ho].
  - destruct forceCornerRadius eqn:Hf.
    + rewrite (corner_forced _ _ _ _ _ _ _ _ Ho eq_refl). simpl. tauto.
    + rewrite (corner_sharp _ _ _ _ _ _ _ _ Ho eq_refl).
      rewrite getSectorPath_absolute.
      split; [discriminate | intros [H _]; discriminate].
  - assert (Hfalse :
      existsb isRelativeArc
        (getSectorWithCorner cx cy innerRadius outerRadius cornerRadius
           forceCornerRadius startAngle endAngle) = false).
    { destruct (Rgt_dec innerRadius 0) as [Hi | Hi].
      - destruct (Rlt_dec
                    (innerArcAngle cx cy innerRadius cornerRadius
                       startAngle endAngle) 0) as [Hs | Hs].
        + rewrite (corner_inner_short _ _ _ _ _ _ _ _ Ho Hi Hs).
          reflexivity.
        + rewrite (corner_inner_rounded _ _ _ _ _ _ _ _ Ho Hi Hs).
          reflexivity.
      - rewrite (corner_no_inner _ _ _ _ _ _ _ _ Ho Hi). reflexivity. }
    rewrite Hfalse. split; [discriminate | intros [_ H]; contradiction].
Qed.

(** X9.  A rendered path holds a relative arc exactly when [render]
    called [getSectorWithCorner], [forceCornerRadius] is set and
    [outerArcAngle] is negative for the corner radius passed: the
    relative form is used for the circle of a too short bar only. *)
Theorem render_relative_arc `{U : Utils} (props : Props) (path : Path)
    (Hpath : render props = Some path) :
  existsb isRelativeArc path = true <->
  roundedDispatch props /\
  forceCornerRadius props = true /\
  outerArcAngle (cx props) (cy props) (outerRadius props)
    (resolvedCornerRadius props) (startAngle props) (endAngle props) < 0.
Proof.
  destruct (render_cases props) as [H | [[Hd H] | [Hd H]]];
    rewrite H in Hpath; [discriminate | |]; injection Hpath as <-.
  - rewrite getSectorPath_absolute.
    split; [discriminate | intros [Hd' _]; contradiction].
  - rewrite getSectorWithCorner_relative. tauto.
Qed.

Lemma render_relative_arc_witness :
  @render SpecUtils (mkProps 0 0 0 100 0 90 (Absolute 0) false) =
    Some (@getSectorPath SpecUtils 0 0 0 100 0 90) /\
  (existsb isRelativeArc (@getSectorPath SpecUtils 0 0 0 100 0 90) = true <->
   @roundedDispatch SpecUtils (mkProps 0 0 0 100 0 90 (Absolute 0) false) /\
   false = true /\
   @outerArcAngle SpecUtils 0 0 100
     (@resolvedCornerRadius SpecUtils
        (mkProps 0 0 0 100 0 90 (Absolute 0) false)) 0 90 < 0).
Proof.
  assert (Hr : @render SpecUtils (mkProps 0 0 0 100 0 90 (Absolute 0) false)
               = Some (@getSectorPath SpecUtils 0 0 0 100 0 90)).
  { rewrite render_sharp; [reflexivity | simpl; lra | simpl; lra |].
    unfold roundedDispatch. simpl. unfold Spec.getPercentValue.
    rewrite Rmin_left by lra. rewrite Rmax_left by lra. lra. }
  split; [exact Hr |].
  exact (render_relative_arc (U := SpecUtils)
           (mkProps 0 0 0 100 0 90 (Absolute 0) false) _ Hr).
Defined.

(** Checks [circleArc] command by command on an explicit path. *)
Ltac circle_arcs :=
  repeat first [apply Forall_nil | apply Forall_cons];
  simpl; try exact I; repeat split; lra.

Lemma getSectorPath_circle_arcs `{U : Utils}
    (cx cy innerRadius outerRadius startAngle endAngle : R) :
  0 <= innerRadius <= outerRadius ->
  Forall circleArc
    (getSectorPath cx cy innerRadius outerRadius startAngle endAngle).
Proof.
  intros Hr. unfold getSectorPath.
  destruct (innerRadius >? 0); simpl; circle_arcs.
Qed.

Lemma getSectorWithCorner_circle_arcs `{U : Utils}
    (cx cy innerRadius outerRadius cornerRadius : R)
    (forceCornerRadius : bool) (startAngle endAngle : R) :
  0 <= innerRadius <= outerRadius -> 0 <= cornerRadius ->
  Forall circleArc
    (getSectorWithCorner cx cy innerRadius outerRadius cornerRadius
       forceCornerRadius startAngle endAngle).
Proof.
  intros Hr Hc. unfold getSectorWithCorner. cbv zeta.
  match goal with |- context [if ?b then _ else _] => destruct b end.
  - destruct forceCornerRadius.
    + circle_arcs.
    + apply getSectorPath_circle_arcs. exact Hr.
  - destruct (innerRadius >? 0).
    + match goal with |- context [if ?b then _ else _] => destruct b end;
        simpl; circle_arcs.
    + simpl. circle_arcs.
Qed.

(** X10.  With [0 <= innerRadius <= outerRadius] and a [getPercentValue]
    that stays within its bound, every arc of a rendered path is a circle
    arc: equal radii, no rotation, and a radius that is not negative. *)
Theorem render_circle_arcs `{U : Utils} (props : Props) (path : Path)
    (Hbound : boundedPercent)
    (Hradii : 0 <= innerRadius props <= outerRadius props)
    (Hpath : render props = Some path) :
  Forall circleArc path.
Proof.
  destruct (render_cases props) as [H | [[Hd H] | [Hd H]]];
    rewrite H in Hpath; [discriminate | |]; injection Hpath as <-.
  - apply getSectorPath_circle_arcs. exact Hradii.
  - apply getSectorWithCorner_circle_arcs; [exact Hradii |].
    pose proof (resolved_corner_bounds props Hbound Hradii Hd). lra.
Qed.

Lemma render_circle_arcs_witness :
  @boundedPercent SpecUtils /\
  0 <= 0 <= 100 /\
  @render SpecUtils (mkProps 0 0 0 100 0 90 (Absolute 0) false) =
    Some (@getSectorPath SpecUtils 0 0 0 100 0 90) /\
  Forall circleArc (@getSectorPath SpecUtils 0 0 0 100 0 90).
Proof.
  assert (Hradii : 0 <= 0 <= 100) by lra.
  assert (Hr : @render SpecUtils (mkProps 0 0 0 100 0 90 (Absolute 0) false)
               = Some (@getSectorPath SpecUtils 0 0 0 100 0 90)).
  { rewrite render_sharp; [reflexivity | simpl; lra | simpl; lra |].
    unfold roundedDispatch. simpl. unfold Spec.getPercentValue.
    rewrite Rmin_left by lra. rewrite Rmax_left by lra. lra. }
  split; [exact spec_boundedPercent |]. split; [exact Hradii |].
  split; [exact Hr |].
  exact (render_circle_arcs (U := SpecUtils)
           (mkProps 0 0 0 100 0 90 (Absolute 0) false) _
           spec_boundedPercent Hradii Hr).
Defined.

(** ** Reversing the direction *)

Section Reversal.
Context `{U : Utils}.
Hypothesis Hsign : signUtility.
Variables cx cy innerRadius outerRadius cornerRadius : R.
Variables startAngle endAngle : R.

Lemma sign_reversed :
  mathSign (startAngle - endAngle) = - mathSign (endAngle - startAngle).
Proof.
  replace (startAngle - endAngle) with (- (endAngle - startAngle)) by ring.
  apply (sign_odd Hsign).
Qed.

Lemma startOuter_reversed :
  startOuter cx cy outerRadius cornerRadius endAngle startAngle =
  endOuter cx cy outerRadius cornerRadius startAngle endAngle.
Proof. unfold startOuter, endOuter. rewrite sign_reversed. reflexivity. Qed.

Lemma endOuter_reversed :
  endOuter cx cy outerRadius cornerRadius endAngle startAngle =
  startOuter cx cy outerRadius cornerRadius startAngle endAngle.
Proof.
  unfold startOuter, endOuter.
  rewrite sign_reversed, Ropp_involutive. reflexivity.
Qed.

Lemma startInner_reversed :
  startInner cx cy innerRadius cornerRadius endAngle startAngle =
  endInner cx cy innerRadius cornerRadius startAngle endAngle.
Proof. unfold startInner, endInner. rewrite sign_reversed. reflexivity. Qed.

Lemma endInner_reversed :
  endInner cx cy innerRadius cornerRadius endAngle startAngle =
  startInner cx cy innerRadius cornerRadius startAngle endAngle.
Proof.
  unfold startInner, endInner.
  rewrite sign_reversed, Ropp_involutive. reflexivity.
Qed.

Lemma outerArcAngle_reversed :
  outerArcAngle cx cy outerRadius cornerRadius endAngle startAngle =
  outerArcAngle cx cy outerRadius cornerRadius startAngle endAngle.
Proof.
  unfold outerArcAngle.
  rewrite startOuter_reversed, endOuter_reversed.
  rewrite (Rabs_minus_sym endAngle startAngle). ring.
Qed.

Lemma innerArcAngle_reversed :
  innerArcAngle cx cy innerRadius cornerRadius endAngle startAngle =
  innerArcAngle cx cy innerRadius cornerRadius startAngle endAngle.
Proof.
  unfold innerArcAngle.
  rewrite startInner_reversed, endInner_reversed.
  rewrite (Rabs_minus_sym endAngle startAngle). ring.
Qed.

(** For distinct angles the sign is 1 or -1, so each sweep test is the
    complement of the other and both exchange under reversal. *)
Lemma sweep_reversed :
  startAngle <> endAngle ->
  (mathSign (endAngle - startAngle) >? 0) =
    negb (mathSign (endAngle - startAngle) <? 0) /\
  (mathSign (startAngle - endAngle) <? 0) =
    negb (mathSign (endAngle - startAngle) <? 0) /\
  (mathSign (startAngle - endAngle) >? 0) =
    (mathSign (endAngle - startAngle) <? 0).
Proof.
  intros Hne. rewrite sign_reversed.
  destruct (Rtotal_order startAngle endAngle) as [Hlt | [Heq | Hgt]];
    [| contradiction |].
  - rewrite (sign_pos Hsign) by lra. decide_cmp. repeat split; reflexivity.
  - rewrite (sign_neg Hsign) by lra. decide_cmp. repeat split; reflexivity.
Qed.

End Reversal.

(** X11.  Reversing the direction of a rounded sector.  With a sign
    function, distinct angles, [innerRadius > 0] and both arc angles not
    negative, [getSectorWithCorner] on [(endAngle, startAngle)] uses the
    tangency points and arc angles of [(startAngle, endAngle)] with start
    and end exchanged and every sweep flag complemented. *)
Theorem getSectorWithCorner_reversed `{U : Utils}
    (cx cy innerRadius outerRadius cornerRadius : R)
    (forceCornerRadius : bool) (startAngle endAngle : R)
    (Hsign : signUtility)
    (Hangles : startAngle <> endAngle)
    (Hinner : innerRadius > 0)
    (Houter : outerArcAngle cx cy outerRadius cornerRadius
                startAngle endAngle >= 0)
    (Hinside : innerArcAngle cx cy innerRadius cornerRadius
                 startAngle endAngle >= 0) :
  let so := startOuter cx cy outerRadius cornerRadius startAngle endAngle in
  let eo := endOuter cx cy outerRadius cornerRadius startAngle endAngle in
  let si := startInner cx cy innerRadius cornerRadius startAngle endAngle in
  let ei := endInner cx cy innerRadius cornerRadius startAngle endAngle in
  let outerArc :=
    outerArcAngle cx cy outerRadius cornerRadius startAngle endAngle in
  let innerArc :=
    innerArcAngle cx cy innerRadius cornerRadius startAngle endAngle in
  let sweep := mathSign (endAngle - startAngle) <? 0 in
  getSectorWithCorner cx cy innerRadius outerRadius cornerRadius
    forceCornerRadius startAngle endAngle =
    [ MoveTo (lineTangency so);
      ArcTo cornerRadius cornerRadius 0 false sweep (circleTangency so);
      ArcTo outerRadius outerRadius 0 (outerArc >? 180) sweep
            (circleTangency eo);
      ArcTo cornerRadius cornerRadius 0 false sweep (lineTangency eo);
      LineTo (lineTangency ei);
      ArcTo cornerRadius cornerRadius 0 false sweep (circleTangency ei);
      ArcTo innerRadius innerRadius 0 (innerArc >? 180) (negb sweep)
            (circleTangency si);
      ArcTo cornerRadius cornerRadius 0 false sweep (lineTangency si);
      ClosePath ] /\
  getSectorWithCorner cx cy innerRadius outerRadius cornerRadius
    forceCornerRadius endAngle startAngle =
    [ MoveTo (lineTangency eo);
      ArcTo cornerRadius cornerRadius 0 false (negb sweep)
            (circleTangency eo);
      ArcTo outerRadius outerRadius 0 (outerArc >? 180) (negb sweep)
            (circleTangency so);
      ArcTo cornerRadius cornerRadius 0 false (negb sweep)
            (lineTangency so);
      LineTo (lineTangency si);
      ArcTo cornerRadius cornerRadius 0 false (negb sweep)
            (circleTangency si);
      ArcTo innerRadius innerRadius 0 (innerArc >? 180) sweep
            (circleTangency ei);
      ArcTo cornerRadius cornerRadius 0 false (negb sweep)
            (lineTangency ei);
      ClosePath ].
Proof.
  intros so eo si ei outerArc innerArc sweep.
  destruct (sweep_reversed Hsign startAngle endAngle Hangles)
    as (Hgt & Hlt' & Hgt').
  split.
  - rewrite corner_inner_rounded;
      [| lra | exact Hinner | lra].
    unfold outerEdge. fold so eo si ei outerArc innerArc sweep.
    rewrite Hgt. reflexivity.
  - rewrite corner_inner_rounded;
      [| rewrite (outerArcAngle_reversed Hsign); lra
       | exact Hinner
       | rewrite (innerArcAngle_reversed Hsign); lra].
    unfold outerEdge.
    rewrite (outerArcAngle_reversed Hsign), (innerArcAngle_reversed Hsign).
    rewrite (startOuter_reversed Hsign cx cy outerRadius cornerRadius
               startAngle endAngle).
    rewrite (endOuter_reversed Hsign cx cy outerRadius cornerRadius
               startAngle endAngle).
    rewrite (startInner_reversed Hsign cx cy innerRadius cornerRadius
               startAngle endAngle).
    rewrite (endInner_reversed Hsign cx cy innerRadius cornerRadius
               startAngle endAngle).
    fold so eo si ei outerArc innerArc.
    rewrite Hlt', Hgt'. reflexivity.
Qed.

Lemma getSectorWithCorner_reversed_witness :
  @signUtility SpecUtils /\
  0 <> 200 /\
  50 > 0 /\
  @outerArcAngle SpecUtils 0 0 100 25 0 200 >= 0 /\
  @innerArcAngle SpecUtils 0 0 50 25 0 200 >= 0 /\
  endsWithClose (@getSectorWithCorner SpecUtils 0 0 50 100 25 false 200 0)
  = true.
Proof.
  assert (Ha : 0 <> 200) by lra.
  assert (Hi : 50 > 0) by lra.
  assert (Ho : @outerArcAngle SpecUtils 0 0 100 25 0 200 >= 0).
  { pose proof (spec_outerArcAngle_0_200 0 0 100 25). lra. }
  assert (Hs : @innerArcAngle SpecUtils 0 0 50 25 0 200 >= 0).
  { pose proof (spec_innerArcAngle_0_200 0 0 50 25). lra. }
  split; [exact spec_signUtility |]. split; [exact Ha |].
  split; [exact Hi |]. split; [exact Ho |]. split; [exact Hs |].
  destruct (getSectorWithCorner_reversed (U := SpecUtils)
              0 0 50 100 25 false 0 200 spec_signUtility Ha Hi Ho Hs)
    as [_ Hrev].
  rewrite Hrev. reflexivity.
Defined.

(** ** When [forceCornerRadius] matters *)

Lemma getSectorWithCorner_force_irrelevant `{U : Utils}
    (cx cy innerRadius outerRadius cornerRadius : R)
    (force force' : bool) (startAngle endAngle : R) :
  ~ outerArcAngle cx cy outerRadius cornerRadius startAngle endAngle < 0 ->
  getSectorWithCorner cx cy innerRadius outerRadius cornerRadius force
    startAngle endAngle =
  getSectorWithCorner cx cy innerRadius outerRadius cornerRadius force'
    startAngle endAngle.
Proof.
  intros Ho.
  destruct (Rgt_dec innerRadius 0) as [Hi | Hi].
  - destruct (Rlt_dec
                (innerArcAngle cx cy innerRadius cornerRadius
                   startAngle endAngle) 0) as [Hs | Hs].
    + rewrite !(corner_inner_short _ _ _ _ _ _ _ _ Ho Hi Hs). reflexivity.
    + rewrite !(corner_inner_rounded _ _ _ _ _ _ _ _ Ho Hi Hs).
      reflexivity.
  - rewrite !(corner_no_inner _ _ _ _ _ _ _ _ Ho Hi). reflexivity.
Qed.

(** X12.  [forceCornerRadius] changes the result of [render] only for a
    bar that is too short for its corners: unless [render] calls
    [getSectorWithCorner] and [outerArcAngle] is negative for the corner
    radius passed, the results with and without it are the same. *)
Theorem render_force_irrelevant `{U : Utils} (props : Props) (force : bool)
    (Hfits :
       ~ (roundedDispatch props /\
          outerArcAngle (cx props) (cy props) (outerRadius props)
            (resolvedCornerRadius props) (startAngle props)
            (endAngle props) < 0)) :
  render (withRounding (cornerRadius props) force props) = render props.
Proof.
  destruct (Rlt_dec (outerRadius props) (innerRadius props)) as [Hr | Hr].
  { rewrite !render_null; [reflexivity | left; exact Hr | left; exact Hr]. }
  destruct (Req_dec_T (startAngle props) (endAngle props)) as [Ha | Ha].
  { rewrite !render_null; [reflexivity | right; exact Ha | right; exact Ha]. }
  destruct (roundedDispatch_dec props) as [Hd | Hd].
  - rewrite (render_rounded props Hr Ha Hd).
    rewrite (render_rounded (withRounding (cornerRadius props) force props)
               Hr Ha Hd).
    f_equal. apply getSectorWithCorner_force_irrelevant. tauto.
  - rewrite (render_sharp props Hr Ha Hd).
    rewrite (render_sharp (withRounding (cornerRadius props) force props)
               Hr Ha Hd).
    reflexivity.
Qed.

Lemma render_force_irrelevant_witness :
  ~ (@roundedDispatch SpecUtils
       (mkProps 0 0 50 100 0 200 (Absolute 25) false) /\
     @outerArcAngle SpecUtils 0 0 100
       (@resolvedCornerRadius SpecUtils
          (mkProps 0 0 50 100 0 200 (Absolute 25) false)) 0 200 < 0) /\
  @render SpecUtils (mkProps 0 0 50 100 0 200 (Absolute 25) true) =
  @render SpecUtils (mkProps 0 0 50 100 0 200 (Absolute 25) false).
Proof.
  assert (H : ~ (@roundedDispatch SpecUtils
                   (mkProps 0 0 50 100 0 200 (Absolute 25) false) /\
                 @outerArcAngle SpecUtils 0 0 100
                   (@resolvedCornerRadius SpecUtils
                      (mkProps 0 0 50 100 0 200 (Absolute 25) false))
                   0 200 < 0)).
  { intros [_ Hneg].
    pose proof (spec_outerArcAngle_0_200 0 0 100
                  (@resolvedCornerRadius SpecUtils
                     (mkProps 0 0 50 100 0 200 (Absolute 25) false))).
    lra. }
  split; [exact H |].
  exact (render_force_irrelevant (U := SpecUtils)
           (mkProps 0 0 50 100 0 200 (Absolute 25) false) true H).
Defined.

(** X13.  With a sign function for [mathSign], [getDeltaAngle] is
    antisymmetric in its two angles, is 0 only for equal angles, has the
    sign of [endAngle - startAngle], never exceeds 359.999 in magnitude,
    and is [endAngle - startAngle] itself within that bound. *)
Theorem getDeltaAngle_normalizes `{U : Utils} (startAngle endAngle : R)
    (Hsign : signUtility) :
  getDeltaAngle endAngle startAngle = - getDeltaAngle startAngle endAngle /\
  (getDeltaAngle startAngle endAngle = 0 <-> startAngle = endAngle) /\
  (getDeltaAngle startAngle endAngle > 0 <-> startAngle < endAngle) /\
  Rabs (getDeltaAngle startAngle endAngle) <= 359.999 /\
  (Rabs (endAngle - startAngle) <= 359.999 ->
   getDeltaAngle startAngle endAngle = endAngle - startAngle).
Proof.
  assert (Hpos : forall a : R, 0 < a -> 0 < Rmin a 359.999)
    by (intros a Ha; apply Rmin_glb_lt; lra).
  assert (Hcap : forall a : R, Rmin a 359.999 <= 359.999)
    by (intros a; apply Rmin_r).
  destruct (getDeltaAngle_cases Hsign startAngle endAngle)
    as [[H Hd] | [[H Hd] | [H Hd]]];
    destruct (getDeltaAngle_cases Hsign endAngle startAngle)
      as [[H' Hd'] | [[H' Hd'] | [H' Hd']]]; try lra;
    rewrite Hd, Hd'.
  - assert (Hp : 0 < Rmin (endAngle - startAngle) 359.999)
      by (apply Hpos; lra).
    pose proof (Hcap (endAngle - startAngle)) as Hc.
    split; [lra |]. split; [split; lra |]. split; [split; lra |].
    split; [rewrite Rabs_pos_eq; lra |].
    intros Hs. rewrite Rabs_pos_eq in Hs by lra. rewrite Rmin_left; lra.
  - split; [lra |]. split; [split; lra |]. split; [split; lra |].
    split; [rewrite Rabs_R0; lra |]. intros _. lra.
  - assert (Hp : 0 < Rmin (startAngle - endAngle) 359.999)
      by (apply Hpos; lra).
    pose proof (Hcap (startAngle - endAngle)) as Hc.
    split; [lra |]. split; [split; lra |]. split; [split; lra |].
    split; [rewrite Rabs_Ropp, Rabs_pos_eq; lra |].
    intros Hs. rewrite Rabs_left in Hs by lra. rewrite Rmin_left; lra.
Qed.

Lemma getDeltaAngle_normalizes_witness :
  @signUtility SpecUtils /\
  @getDeltaAngle SpecUtils 90 0 = - @getDeltaAngle SpecUtils 0 90.
Proof.
  split; [exact spec_signUtility |].
  apply (getDeltaAngle_normalizes (U := SpecUtils) 0 90 spec_signUtility).
Defined.

(** * The claims on the full turn, the span, the contour and the domain *)

(** ** Shared facts *)

Lemma sign_zero_iff `{U : Utils} (value : R) :
  signUtility -> (mathSign value = 0 <-> value = 0).
Proof.
  intros Hsign. split.
  - intros H. destruct (Rtotal_order value 0) as [Hn | [Hz | Hp]].
    + rewrite (sign_neg Hsign _ Hn) in H. lra.
    + exact Hz.
    + rewrite (sign_pos Hsign _ Hp) in H. lra.
  - intros ->. apply (sign_zero Hsign).
Qed.

Lemma getDeltaAngle_zero_iff `{U : Utils} (startAngle endAngle : R) :
  signUtility ->
  (getDeltaAngle startAngle endAngle = 0 <-> startAngle = endAngle).
Proof.
  intros Hsign.
  destruct (getDeltaAngle_cases Hsign startAngle endAngle)
    as [[H Hd] | [[H Hd] | [H Hd]]]; rewrite Hd.
  - assert (0 < Rmin (endAngle - startAngle) 359.999)
      by (apply Rmin_glb_lt; lra).
    split; lra.
  - split; intros; [exact H | reflexivity].
  - assert (0 < Rmin (startAngle - endAngle) 359.999)
      by (apply Rmin_glb_lt; lra).
    split; lra.
Qed.

(** Under a sign function the magnitude of the delta angle is the capped
    span. *)
Lemma signed_span_magnitude `{U : Utils} (startAngle endAngle : R) :
  signUtility ->
  Rabs (mathSign (endAngle - startAngle) *
        Rmin (Rabs (endAngle - startAngle)) 359.999) =
  Rmin (Rabs (endAngle - startAngle)) 359.999.
Proof.
  intros Hsign.
  assert (Hnn : 0 <= Rmin (Rabs (endAngle - startAngle)) 359.999)
    by (apply Rmin_glb; [apply Rabs_pos | lra]).
  destruct (Rtotal_order startAngle endAngle) as [Hlt | [Heq | Hgt]].
  - rewrite (sign_pos Hsign) by lra. rewrite Rmult_1_l.
    apply Rabs_pos_eq. exact Hnn.
  - subst endAngle. replace (startAngle - startAngle) with 0 by lra.
    rewrite (sign_zero Hsign), Rabs_R0, Rmult_0_l, Rabs_R0.
    rewrite Rmin_left by lra. reflexivity.
  - rewrite (sign_neg Hsign) by lra.
    replace (-1 * Rmin (Rabs (endAngle - startAngle)) 359.999)
      with (- Rmin (Rabs (endAngle - startAngle)) 359.999) by ring.
    rewrite Rabs_Ropp. apply Rabs_pos_eq. exact Hnn.
Qed.

(** Two points at the same non-zero distance from the centre and at
    angles less than a full turn apart are different. *)
Lemma polar_points_differ `{U : Utils} (cx cy radius angle angle' : R) :
  polarUtility -> degreeUtility ->
  radius <> 0 -> angle <> angle' -> Rabs (angle - angle') < 360 ->
  polarToCartesian cx cy radius angle <>
  polarToCartesian cx cy radius angle'.
Proof.
  intros Hpolar Hdegree Hr Ha Hspan Heq.
  assert (Hzero : dist2 (polarToCartesian cx cy radius angle)
                        (polarToCartesian cx cy radius angle') = 0)
    by (rewrite Heq; apply dist2_same).
  rewrite (polar_dist2 Hpolar), Hdegree in Hzero.
  assert (Hcos : cos ((angle - angle') * (PI / 180)) < 1)
    by (apply cos_degrees_lt_1; [lra | exact Hspan]).
  assert (0 < radius * radius) by nra.
  nra.
Qed.

(** C2.  [getDeltaAngle] is [sign(endAngle - startAngle)] times
    [min(|endAngle - startAngle|, 359.999)], where the sign, and so the
    delta angle, is 0 only when the two angles are equal.  With valid
    radii, [render] at the angles 0 and 360 returns the full sector: the
    sharp path whose arcs run from angle 0 to the capped angle 359.999,
    with the large-arc flag set, between two different points when the
    radius is not 0; at the angles 0 and 0 it returns [null]; the two
    results differ. *)
Theorem getDeltaAngle_full_turn `{U : Utils}
    (cx cy innerRadius outerRadius : R)
    (cornerRadius : CornerRadius) (forceCornerRadius : bool)
    (Hsign : signUtility)
    (Hradii : innerRadius <= outerRadius) :
  let full := mkProps cx cy innerRadius outerRadius 0 360
                      cornerRadius forceCornerRadius in
  let empty := mkProps cx cy innerRadius outerRadius 0 0
                       cornerRadius forceCornerRadius in
  (forall startAngle endAngle : R,
     getDeltaAngle startAngle endAngle =
     mathSign (endAngle - startAngle) *
     Rmin (Rabs (endAngle - startAngle)) 359.999) /\
  (forall d : R, mathSign d = 0 <-> d = 0) /\
  (forall startAngle endAngle : R,
     getDeltaAngle startAngle endAngle = 0 <-> startAngle = endAngle) /\
  getDeltaAngle 0 360 = 359.999 /\
  render full =
    Some ([ MoveTo (polarToCartesian cx cy outerRadius 0);
            ArcTo outerRadius outerRadius 0 true false
              (polarToCartesian cx cy outerRadius 359.999) ] ++
          if innerRadius >? 0
          then [ LineTo (polarToCartesian cx cy innerRadius 359.999);
                 ArcTo innerRadius innerRadius 0 true true
                   (polarToCartesian cx cy innerRadius 0);
                 ClosePath ]
          else [ LineTo (mkPoint cx cy); ClosePath ]) /\
  (polarUtility -> degreeUtility -> outerRadius <> 0 ->
   polarToCartesian cx cy outerRadius 0 <>
   polarToCartesian cx cy outerRadius 359.999) /\
  render empty = None /\
  render full <> render empty.
Proof.
  intros full empty.
  assert (Hdelta : getDeltaAngle 0 360 = 359.999).
  { destruct (getDeltaAngle_cases Hsign 0 360)
      as [[_ ->] | [[H _] | [H _]]]; try lra.
    rewrite Rmin_right by lra. reflexivity. }
  assert (Hfull : render full =
            Some (getSectorPath cx cy innerRadius outerRadius 0 360)).
  { rewrite (render_sharp full); [reflexivity | simpl; lra | simpl; lra |].
    unfold roundedDispatch. simpl. intros [_ H].
    rewrite Rabs_left in H by lra. lra. }
  assert (Hempty : render empty = None)
    by (apply render_null; right; reflexivity).
  split; [reflexivity |].
  split; [intros d; apply sign_zero_iff; exact Hsign |].
  split; [intros s e; apply getDeltaAngle_zero_iff; exact Hsign |].
  split; [exact Hdelta |].
  split.
  - rewrite Hfull. unfold getSectorPath. rewrite Hdelta.
    replace (0 + 359.999) with 359.999 by lra.
    rewrite (Rabs_pos_eq 359.999) by lra.
    rewrite (Rgtb_true 359.999 180) by lra.
    rewrite (Rgtb_false 0 359.999) by lra.
    rewrite (Rleb_true 0 359.999) by lra.
    destruct (innerRadius >? 0); reflexivity.
  - split.
    + intros Hpolar Hdegree Hr.
      apply polar_points_differ; try assumption; [lra |].
      rewrite Rabs_left; lra.
    + split; [exact Hempty |].
      rewrite Hfull, Hempty. discriminate.
Qed.

Lemma getDeltaAngle_full_turn_witness :
  @signUtility SpecUtils /\
  0 <= 100 /\
  @render SpecUtils (mkProps 0 0 0 100 0 360 (Absolute 0) false) =
    Some ([ MoveTo (@polarToCartesian SpecUtils 0 0 100 0);
            ArcTo 100 100 0 true false
              (@polarToCartesian SpecUtils 0 0 100 359.999) ] ++
          if 0 >? 0
          then [ LineTo (@polarToCartesian SpecUtils 0 0 0 359.999);
                 ArcTo 0 0 0 true true (@polarToCartesian SpecUtils 0 0 0 0);
                 ClosePath ]
          else [ LineTo (mkPoint 0 0); ClosePath ]).
Proof.
  assert (Hr : 0 <= 100) by lra.
  split; [exact spec_signUtility |]. split; [exact Hr |].
  apply (getDeltaAngle_full_turn (U := SpecUtils) 0 0 0 100 (Absolute 0)
           false spec_signUtility Hr).
Defined.







(** ** The span that each builder uses *)

Lemma cos_asin_nonzero (a : R) : -1 < a < 1 -> cos (asin a) <> 0.
Proof.
  intros Ha H0. pose proof (sin2_cos2_prod (asin a)) as H.
  rewrite sin_asin in H by lra. rewrite H0 in H. nra.
Qed.

Lemma spec_resolved_10 (cx cy startAngle endAngle : R) (force : bool) :
  @resolvedCornerRadius SpecUtils
    (mkProps cx cy 0 100 startAngle endAngle (Absolute 10) force) = 10.
Proof.
  unfold resolvedCornerRadius.
  cbn [innerRadius outerRadius cornerRadius].
  change (@getPercentValue SpecUtils) with Spec.getPercentValue.
  rewrite spec_getPercentValue_10. rewrite Rmin_left by lra. reflexivity.
Qed.

Lemma spec_tempEndAngle_capped :
  @tempEndAngle SpecUtils 0 359.9995 = 359.999.
Proof.
  unfold tempEndAngle. rewrite spec_getDeltaAngle_increasing by lra.
  rewrite Rmin_right by lra. lra.
Qed.

(** C8, as stated, fails.  With radii 0 and 100, corner radius 10 and
    angles 0 and 359.9995, [min(|endAngle - startAngle|, 359.999)] is
    359.999 and [getSectorPath] would end its arcs at 359.999; but
    [render] returns the path of [getSectorWithCorner], whose end corner
    is solved at the angle 359.9995, at another point than the one
    solved at 359.999, and whose main arc takes its large-arc flag from
    the span 359.9995. *)
Lemma rounded_span_counterexample :
  let so := @getTangentCircle SpecUtils 0 0 100 0 1 false 10 in
  let eo := @getTangentCircle SpecUtils 0 0 100 359.9995 (-1) false 10 in
  let capped :=
    @getTangentCircle SpecUtils 0 0 100 (@tempEndAngle SpecUtils 0 359.9995)
      (-1) false 10 in
  Rmin (Rabs (359.9995 - 0)) 359.999 = 359.999 /\
  @tempEndAngle SpecUtils 0 359.9995 = 359.999 /\
  @render SpecUtils (mkProps 0 0 0 100 0 359.9995 (Absolute 10) false) =
    Some [ MoveTo (lineTangency so);
           ArcTo 10 10 0 false false (circleTangency so);
           ArcTo 100 100 0 (359.9995 - theta so - theta eo >? 180) false
                 (circleTangency eo);
           ArcTo 10 10 0 false false (lineTangency eo);
           LineTo (mkPoint 0 0);
           ClosePath ] /\
  lineTangency eo <> lineTangency capped /\
  359.9995 - theta so - theta eo <>
    Rmin (Rabs (359.9995 - 0)) 359.999 - theta so - theta eo.
Proof.
  intros so eo capped.
  assert (Hmin : Rmin (Rabs (359.9995 - 0)) 359.999 = 359.999).
  { rewrite Rabs_pos_eq by lra. rewrite Rmin_right by lra. reflexivity. }
  assert (Hsgn : @mathSign SpecUtils (359.9995 - 0) = 1)
    by (apply spec_mathSign_pos; lra).
  assert (Hso : @startOuter SpecUtils 0 0 100 10 0 359.9995 = so)
    by (unfold startOuter; rewrite Hsgn; reflexivity).
  assert (Heo : @endOuter SpecUtils 0 0 100 10 0 359.9995 = eo).
  { unfold endOuter. rewrite Hsgn.
    replace (- (1)) with (-1) by lra. reflexivity. }
  assert (Harc : @outerArcAngle SpecUtils 0 0 100 10 0 359.9995 =
                 359.9995 - theta so - theta eo).
  { unfold outerArcAngle. rewrite Hso, Heo.
    rewrite Rabs_left by lra. lra. }
  assert (Hfits : ~ @outerArcAngle SpecUtils 0 0 100 10 0 359.9995 < 0).
  { rewrite Harc.
    pose proof (spec_theta_le_90 0 0 100 0 1 false 10).
    pose proof (spec_theta_le_90 0 0 100 359.9995 (-1) false 10).
    fold so in H. fold eo in H0. lra. }
  split; [exact Hmin |]. split; [exact spec_tempEndAngle_capped |].
  split; [| split].
  - rewrite render_rounded.
    + rewrite spec_resolved_10.
      cbn [cx cy innerRadius outerRadius startAngle endAngle
           forceCornerRadius].
      rewrite (corner_no_inner _ _ _ _ _ _ _ _ Hfits)
        by (apply Rlt_irrefl).
      unfold outerEdge. rewrite Harc, Hso, Heo, Hsgn.
      rewrite (Rltb_false 1 0) by lra. reflexivity.
    + simpl. lra.
    + simpl. lra.
    + unfold roundedDispatch.
      cbn [innerRadius outerRadius cornerRadius startAngle endAngle].
      change (@getPercentValue SpecUtils) with Spec.getPercentValue.
      rewrite spec_getPercentValue_10. rewrite Rabs_left by lra. lra.
  - unfold eo, capped, getTangentCircle. cbn [lineTangency].
    rewrite spec_tempEndAngle_capped.
    apply (polar_points_differ (U := SpecUtils)).
    + exact spec_polarUtility.
    + exact spec_degreeUtility.
    + assert (Hc : centerRadiusOf 100 false 10 = 90)
        by (unfold centerRadiusOf; lra).
      rewrite Hc.
      replace (asin (10 / 90) / @RADIAN SpecUtils * @RADIAN SpecUtils)
        with (asin (10 / 90))
        by (simpl; unfold Spec.RADIAN; pose proof PI_RGT_0; field; lra).
      pose proof (cos_asin_nonzero (10 / 90)) as Hcos.
      assert (cos (asin (10 / 90)) <> 0) by (apply Hcos; lra).
      nra.
    + lra.
    + rewrite Rabs_pos_eq; lra.
  - rewrite Hmin. lra.
Qed.

(** C8, amended.  With a sign function for [mathSign]: [getSectorPath]
    draws its arcs over [min(|endAngle - startAngle|, 359.999)] degrees
    in the direction of [endAngle - startAngle]: that magnitude sets the
    large-arc flag, and the arcs end at [startAngle] plus the sign times
    it.  [render] calls [getSectorWithCorner] when the resolved corner
    radius is positive and [|startAngle - endAngle| < 360], and never for
    a span of 360 degrees or more.  [getSectorWithCorner] uses the span
    [|startAngle - endAngle|] itself in [outerArcAngle] and
    [innerArcAngle] and solves its end corners at [endAngle] itself;
    span and end angle are the capped ones whenever
    [|endAngle - startAngle| <= 359.999]. *)
Theorem angular_span `{U : Utils} (Hsign : signUtility) :
  (forall cx cy innerRadius outerRadius startAngle endAngle : R,
     let span := Rmin (Rabs (endAngle - startAngle)) 359.999 in
     let tempEnd := startAngle + mathSign (endAngle - startAngle) * span in
     Rabs (getDeltaAngle startAngle endAngle) = span /\
     (startAngle < endAngle -> getDeltaAngle startAngle endAngle > 0) /\
     (endAngle < startAngle -> getDeltaAngle startAngle endAngle < 0) /\
     getSectorPath cx cy innerRadius outerRadius startAngle endAngle =
       [ MoveTo (polarToCartesian cx cy outerRadius startAngle);
         ArcTo outerRadius outerRadius 0
           (span >? 180) (startAngle >? tempEnd)
           (polarToCartesian cx cy outerRadius tempEnd) ] ++
       (if innerRadius >? 0
        then [ LineTo (polarToCartesian cx cy innerRadius tempEnd);
               ArcTo innerRadius innerRadius 0
                 (span >? 180) (startAngle <=? tempEnd)
                 (polarToCartesian cx cy innerRadius startAngle);
               ClosePath ]
        else [ LineTo (mkPoint cx cy); ClosePath ])) /\
  (forall props : Props,
     let delta := outerRadius props - innerRadius props in
     let cr := getPercentValue (cornerRadius props) delta 0 true in
     (~ outerRadius props < innerRadius props ->
      startAngle props <> endAngle props ->
      cr > 0 ->
      Rabs (startAngle props - endAngle props) < 360 ->
      render props =
        Some (getSectorWithCorner (cx props) (cy props)
                (innerRadius props) (outerRadius props)
                (Rmin cr (delta / 2)) (forceCornerRadius props)
                (startAngle props) (endAngle props))) /\
     (Rabs (startAngle props - endAngle props) >= 360 ->
      render props = None \/
      render props =
        Some (getSectorPath (cx props) (cy props) (innerRadius props)
                (outerRadius props) (startAngle props) (endAngle props)))) /\
  (forall (cx cy innerRadius outerRadius cornerRadius : R)
          (forceCornerRadius : bool) (startAngle endAngle : R),
     let sign := mathSign (endAngle - startAngle) in
     let span := Rabs (startAngle - endAngle) in
     let so := getTangentCircle cx cy outerRadius startAngle sign false
                 cornerRadius in
     let eo := getTangentCircle cx cy outerRadius endAngle (- sign) false
                 cornerRadius in
     let si := getTangentCircle cx cy innerRadius startAngle sign true
                 cornerRadius in
     let ei := getTangentCircle cx cy innerRadius endAngle (- sign) true
                 cornerRadius in
     let outerArc := span - theta so - theta eo in
     let innerArc := span - theta si - theta ei in
     let path :=
       getSectorWithCorner cx cy innerRadius outerRadius cornerRadius
         forceCornerRadius startAngle endAngle in
     let outerEdge :=
       [ MoveTo (lineTangency so);
         ArcTo cornerRadius cornerRadius 0 false (sign <? 0)
               (circleTangency so);
         ArcTo outerRadius outerRadius 0 (outerArc >? 180) (sign <? 0)
               (circleTangency eo);
         ArcTo cornerRadius cornerRadius 0 false (sign <? 0)
               (lineTangency eo) ] in
     (outerArc < 0 -> forceCornerRadius = false ->
      path =
      getSectorPath cx cy innerRadius outerRadius startAngle endAngle) /\
     (outerArc < 0 -> forceCornerRadius = true ->
      path =
      [ MoveTo (lineTangency so);
        ArcBy cornerRadius cornerRadius 0 false true (cornerRadius * 2) 0;
        ArcBy cornerRadius cornerRadius 0 false true
              ((- cornerRadius) * 2) 0 ]) /\
     (~ outerArc < 0 -> ~ (innerRadius > 0 /\ ~ innerArc < 0) ->
      path = outerEdge ++ [ LineTo (mkPoint cx cy); ClosePath ]) /\
     (~ outerArc < 0 -> innerRadius > 0 -> ~ innerArc < 0 ->
      path =
      outerEdge ++
      [ LineTo (lineTangency ei);
        ArcTo cornerRadius cornerRadius 0 false (sign <? 0)
              (circleTangency ei);
        ArcTo innerRadius innerRadius 0 (innerArc >? 180) (sign >? 0)
              (circleTangency si);
        ArcTo cornerRadius cornerRadius 0 false (sign <? 0)
              (lineTangency si);
        ClosePath ])) /\
  (forall startAngle endAngle : R,
     Rabs (endAngle - startAngle) <= 359.999 ->
     Rabs (startAngle - endAngle) =
       Rmin (Rabs (endAngle - startAngle)) 359.999 /\
     startAngle + getDeltaAngle startAngle endAngle = endAngle).
Proof.
  split; [| split; [| split]].
  - intros cx cy innerRadius outerRadius startAngle endAngle span tempEnd.
    assert (Hmag : Rabs (getDeltaAngle startAngle endAngle) = span)
      by (apply signed_span_magnitude; exact Hsign).
    split; [exact Hmag |].
    split; [| split].
    + intros H.
      destruct (getDeltaAngle_cases Hsign startAngle endAngle)
        as [[_ ->] | [[H' _] | [H' _]]]; try lra.
      apply Rmin_glb_lt; lra.
    + intros H.
      destruct (getDeltaAngle_cases Hsign startAngle endAngle)
        as [[H' _] | [[H' _] | [_ ->]]]; try lra.
      assert (0 < Rmin (startAngle - endAngle) 359.999)
        by (apply Rmin_glb_lt; lra).
      lra.
    + unfold getSectorPath. cbv zeta. rewrite Hmag.
      destruct (innerRadius >? 0); reflexivity.
  - intros props delta cr. split.
    + intros Hr Ha Hc Hs. apply render_rounded; try assumption.
      split; assumption.
    + intros Hs.
      destruct (render_cases props) as [H | [[_ H] | [[_ Hd] _]]];
        [left; exact H | right; exact H | lra].
  - intros cx cy innerRadius outerRadius cornerRadius forceCornerRadius
           startAngle endAngle sign span so eo si ei outerArc innerArc
           path outerEdge.
    split; [| split; [| split]].
    + intros Ho Hf. apply corner_sharp; assumption.
    + intros Ho Hf. apply corner_forced; assumption.
    + intros Ho Hin.
      destruct (Rgt_dec innerRadius 0) as [Hi | Hi].
      * assert (Hs : innerArc < 0).
        { destruct (Rlt_dec innerArc 0); [assumption | tauto]. }
        apply (corner_inner_short _ _ _ _ _ forceCornerRadius _ _ Ho Hi Hs).
      * apply (corner_no_inner _ _ _ _ _ forceCornerRadius _ _ Ho Hi).
    + intros Ho Hi Hs.
      apply (corner_inner_rounded _ _ _ _ _ forceCornerRadius _ _ Ho Hi Hs).
  - intros startAngle endAngle Hspan. split.
    + rewrite Rmin_left by assumption. apply Rabs_minus_sym.
    + apply (tempEndAngle_short Hsign). exact Hspan.
Qed.

Lemma angular_span_witness :
  @signUtility SpecUtils /\
  Rabs (@getDeltaAngle SpecUtils 0 400) = Rmin (Rabs (400 - 0)) 359.999.
Proof.
  split; [exact spec_signUtility |].
  destruct (angular_span (U := SpecUtils) spec_signUtility) as [Hsharp _].
  apply (Hsharp 0 0 0 100 0 400).
Defined.
